(** * Bio-Util: nucleotide statistics of a FASTA file

    A shallow embedding of [Bio_Util.cpp] and the properties of its
    two-phase pipeline: the boundary scanner ([getIndicies],
    [processChunks]), the dispatcher ([stageCollections],
    [getDescription]), the tally ([collectCounts]), the sink
    ([printStats]) and the command line ([readFile], [main]).

    Conventions of the embedding:
    - [BigInt] ([uint64_t]) and [size_t] are [Z] with the wrap-around
      [wrap64] written at every arithmetic operation of the source;
      [int] is [Z] kept inside [INT_MIN .. INT_MAX];
    - the mapped file [const char* mem] is a [list ascii]; a read outside
      the mapping is the fault [OutOfBounds];
    - a [for] loop of the source is a [Fixpoint] over a step budget; running
      out of budget is the fault [OutOfFuel], so that a loop that never
      ends is told apart from one that returns;
    - threads are modelled by the order in which their effects on the
      shared object (the boundary vector, the output stream) can land. *)

From Stdlib Require Import Ascii String.
From Stdlib Require Import ZArith List Lia Bool.
From Stdlib Require Import Permutation Sorted.
From Stdlib Require DecimalString DecimalN DecimalPos.
Import ListNotations.
Open Scope Z_scope.

(** ** Machine integers and faults *)

(** [using BigInt = uint64_t]. *)
Abbreviation BigInt := Z (only parsing).

Definition wrap64 (z : Z) : BigInt := z mod 2 ^ 64.

Definition INT_MAX : Z := 2 ^ 31 - 1.
Definition INT_MIN : Z := - 2 ^ 31.

(** Conversion of an [int] operand to [uint64_t] (usual arithmetic
    conversions when the other operand is a [BigInt]). *)
Definition u64_of_int (i : Z) : BigInt := wrap64 i.

Inductive fault : Type :=
| OutOfBounds    (* read outside the mapped file or the vector *)
| DivideByZero   (* integer division by zero *)
| Unassigned     (* read of a variable that was never assigned *)
| OutOfFuel.     (* the step budget of the model ran out *)

Inductive result (A : Type) : Type :=
| Ok (a : A)
| Err (f : fault).
Arguments Ok {A} a.
Arguments Err {A} f.

Definition bind {A B : Type} (r : result A) (k : A -> result B) : result B :=
  match r with
  | Ok a => k a
  | Err f => Err f
  end.

Notation "x <- c1 ;; c2" := (bind c1 (fun x => c2))
  (at level 61, c1 at next level, right associativity).

(** ** The mapped file *)

Definition Mem := list ascii.

Definition mem_at (mem : Mem) (i : BigInt) : result ascii :=
  if i <? 0 then Err OutOfBounds
  else match nth_error mem (Z.to_nat i) with
       | Some c => Ok c
       | None => Err OutOfBounds
       end.

Definition newline : ascii := "010"%char.
Definition marker : ascii := ">"%char.

(** The bytes of [mem] at the offsets [lo], ..., [hi - 1]. *)
Definition slice (mem : Mem) (lo hi : Z) : list ascii :=
  firstn (Z.to_nat (hi - lo)) (skipn (Z.to_nat lo) mem).

(** The offsets [lo], ..., [hi - 1]. *)
Definition offsets (lo hi : Z) : list Z :=
  map (fun k => lo + Z.of_nat k) (seq 0 (Z.to_nat (hi - lo))).

(** Text of the examples: [nl] stands for the line break. *)
Definition bytes (s : string) : list ascii := list_ascii_of_string s.
Definition nl : list ascii := [newline].

(** ** Symbol tally: [collectCounts] *)

Module Tally.

Record Counts : Type := mkCounts {
  G : Z; C : Z; A : Z; T : Z; N : Z; total : Z
}.

Definition zero : Counts := mkCounts 0 0 0 0 0 0.

(** The [switch] of [collectCounts]: one counter and [total] go up, or
    nothing happens. *)
Definition count_nucleotide (nucleotide : ascii) (k : Counts) : Counts :=
  if Ascii.eqb nucleotide "G" then
    mkCounts (wrap64 (G k + 1)) (C k) (A k) (T k) (N k) (wrap64 (total k + 1))
  else if Ascii.eqb nucleotide "C" then
    mkCounts (G k) (wrap64 (C k + 1)) (A k) (T k) (N k) (wrap64 (total k + 1))
  else if Ascii.eqb nucleotide "A" then
    mkCounts (G k) (C k) (wrap64 (A k + 1)) (T k) (N k) (wrap64 (total k + 1))
  else if Ascii.eqb nucleotide "T" then
    mkCounts (G k) (C k) (A k) (wrap64 (T k + 1)) (N k) (wrap64 (total k + 1))
  else if Ascii.eqb nucleotide "N" then
    mkCounts (G k) (C k) (A k) (T k) (wrap64 (N k + 1)) (wrap64 (total k + 1))
  else k.

(** [for (BigInt i = start; i < end; i++)] of [collectCounts]. *)
Fixpoint count_loop (fuel : nat) (mem : Mem) (i end_ : BigInt) (k : Counts)
  : result Counts :=
  match fuel with
  | O => Err OutOfFuel
  | S fuel' =>
      if i <? end_ then
        nucleotide <- mem_at mem i ;;
        count_loop fuel' mem (wrap64 (i + 1)) end_ (count_nucleotide nucleotide k)
      else Ok k
  end.

(** What [collectCounts] hands to [printStats]. *)
Record Stats : Type := mkStats {
  desc : list ascii;
  counts : Counts
}.

Definition collectCounts (desc : list ascii) (start end_ : BigInt) (mem : Mem)
  : result Stats :=
  k <- count_loop (S (Z.to_nat (end_ - start))) mem start end_ zero ;;
  Ok (mkStats desc k).

(** Number of occurrences of the byte [c] in [l]. *)
Definition occ (c : ascii) (l : list ascii) : Z :=
  Z.of_nat (count_occ ascii_dec l c).

Definition is_nucleotide (c : ascii) : bool :=
  Ascii.eqb c "G" || Ascii.eqb c "C" || Ascii.eqb c "A"
  || Ascii.eqb c "T" || Ascii.eqb c "N".

End Tally.

(** ** Record boundary scanner: [processChunks], [getIndicies] *)

Module Scanner.

(** [for (BigInt i = start; i < end; i++)] of [processChunks]; [pushed]
    is what this thread has appended to the shared vector so far. *)
Fixpoint scan_loop (fuel : nat) (mem : Mem) (i end_ : BigInt)
  (pushed : list BigInt) : result (list BigInt) :=
  match fuel with
  | O => Err OutOfFuel
  | S fuel' =>
      if i <? end_ then
        c <- mem_at mem i ;;
        scan_loop fuel' mem (wrap64 (i + 1)) end_
          (if Ascii.eqb c marker then pushed ++ [i] else pushed)
      else Ok pushed
  end.

(** The offsets one thread pushes, in the order it pushes them. *)
Definition processChunks (mem : Mem) (start end_ : BigInt)
  : result (list BigInt) :=
  scan_loop (S (Z.to_nat (end_ - start))) mem start end_ [].

(** Body of [for (int chunk = 0; chunk < numThreads; chunk++)]: the range
    handed to the thread of [chunk]. *)
Definition chunk_range (size chunkSize numThreads chunk : Z)
  : BigInt * BigInt :=
  let start := wrap64 (u64_of_int chunk * chunkSize) in
  let end_ := if chunk =? numThreads - 1 then size
              else wrap64 (start + chunkSize) in
  (start, end_).

(** [chunkSize = size / numThreads] and the ranges of the launched
    threads, in launch order. *)
Definition chunk_ranges (size numThreads : Z)
  : result (list (BigInt * BigInt)) :=
  if u64_of_int numThreads =? 0 then Err DivideByZero
  else
    let chunkSize := size / u64_of_int numThreads in
    Ok (map (fun chunk => chunk_range size chunkSize numThreads (Z.of_nat chunk))
            (seq 0 (Z.to_nat numThreads))).

Fixpoint thread_pushes (mem : Mem) (ranges : list (BigInt * BigInt))
  : result (list (list BigInt)) :=
  match ranges with
  | [] => Ok []
  | (start, end_) :: ranges' =>
      p <- processChunks mem start end_ ;;
      ps <- thread_pushes mem ranges' ;;
      Ok (p :: ps)
  end.

(** The orders in which the [push_back]s of several threads can land in
    the shared vector: every step takes the next push of some thread. *)
Inductive interleave {X : Type} : list (list X) -> list X -> Prop :=
| interleave_done : forall ls,
    Forall (fun l => l = []) ls -> interleave ls []
| interleave_push : forall ls1 x xs ls2 out,
    interleave (ls1 ++ xs :: ls2) out ->
    interleave (ls1 ++ (x :: xs) :: ls2) (x :: out).

(** [std::sort] with the comparator [a < b], as an insertion sort. *)
Fixpoint sort_insert (x : BigInt) (l : list BigInt) : list BigInt :=
  match l with
  | [] => [x]
  | y :: l' => if y <? x then y :: sort_insert x l' else x :: y :: l'
  end.

Fixpoint std_sort (l : list BigInt) : list BigInt :=
  match l with
  | [] => []
  | x :: l' => sort_insert x (std_sort l')
  end.

(** [getIndicies] when every thread runs to its end before the next one
    starts. *)
Definition getIndicies_seq (indicies : list BigInt) (mem : Mem)
  (size numThreads : Z) : result (list BigInt) :=
  ranges <- chunk_ranges size numThreads ;;
  pushes <- thread_pushes mem ranges ;;
  Ok (std_sort (indicies ++ concat pushes ++ [size])).

(** [getIndicies] under every schedule of its threads: the value left in
    [indicies] when it returns, or the fault it runs into. *)
Inductive getIndicies (indicies : list BigInt) (mem : Mem)
  (size numThreads : Z) : result (list BigInt) -> Prop :=
| getIndicies_div : forall f,
    chunk_ranges size numThreads = Err f ->
    getIndicies indicies mem size numThreads (Err f)
| getIndicies_read : forall ranges f,
    chunk_ranges size numThreads = Ok ranges ->
    thread_pushes mem ranges = Err f ->
    getIndicies indicies mem size numThreads (Err f)
| getIndicies_sorted : forall ranges pushes shared,
    chunk_ranges size numThreads = Ok ranges ->
    thread_pushes mem ranges = Ok pushes ->
    interleave pushes shared ->
    getIndicies indicies mem size numThreads
      (Ok (std_sort (indicies ++ shared ++ [size]))).

End Scanner.

(** ** Record dispatcher: [getDescription], [stageCollections] *)

Module Dispatcher.

(** [struct Description]; [ending] is [None] as long as the field was
    never assigned. *)
Record Description : Type := mkDescription {
  desc : list ascii;
  ending : option BigInt
}.

(** [for (BigInt i = start; i < size; i++)] of [getDescription], with
    its [break]. *)
Fixpoint describe_loop (fuel : nat) (mem : Mem) (i size : BigInt)
  (name : list ascii) : result Description :=
  match fuel with
  | O => Err OutOfFuel
  | S fuel' =>
      if i <? size then
        c <- mem_at mem i ;;
        if Ascii.eqb c newline then Ok (mkDescription name (Some i))
        else describe_loop fuel' mem (wrap64 (i + 1)) size (name ++ [c])
      else Ok (mkDescription name None)
  end.

Definition getDescription (mem : Mem) (start size : BigInt)
  : result Description :=
  describe_loop (S (Z.to_nat (size - start))) mem start size [].

(** [indicies[i]] on a [std::vector]. *)
Definition vec_at (v : list BigInt) (i : BigInt) : result BigInt :=
  if i <? 0 then Err OutOfBounds
  else match nth_error v (Z.to_nat i) with
       | Some x => Ok x
       | None => Err OutOfBounds
       end.

(** [indicies.size() - 1] in [size_t]. *)
Definition last_index (indicies : list BigInt) : BigInt :=
  wrap64 (Z.of_nat (length indicies) - 1).

(** The arguments of one launched thread:
    [std::thread(collectCounts, des.desc, des.ending, indicies[index + 1], mem)]. *)
Record Task : Type := mkTask {
  t_desc : list ascii;
  t_start : option BigInt;
  t_end : BigInt
}.

(** [for (int t = 0; t < numThreads; t++)] of [stageCollections]. *)
Fixpoint launch_loop (fuel : nat) (indicies : list BigInt) (mem : Mem)
  (size : BigInt) (numThreads : Z) (i : BigInt) (t : Z)
  (threads : list Task) (threadsUsed : Z) : result (list Task * Z) :=
  match fuel with
  | O => Err OutOfFuel
  | S fuel' =>
      if t <? numThreads then
        let index := wrap64 (i + u64_of_int t) in
        if index <? last_index indicies then
          b <- vec_at indicies index ;;
          des <- getDescription mem b size ;;
          e <- vec_at indicies (wrap64 (index + 1)) ;;
          launch_loop fuel' indicies mem size numThreads i (t + 1)
            (threads ++ [mkTask (desc des) (ending des) e]) (threadsUsed + 1)
        else
          launch_loop fuel' indicies mem size numThreads i (t + 1)
            threads threadsUsed
      else Ok (threads, threadsUsed)
  end.

(** One wave: the threads it launches and [threadsUsed]. *)
Definition launch_wave (indicies : list BigInt) (mem : Mem) (size : BigInt)
  (numThreads : Z) (i : BigInt) : result (list Task * Z) :=
  launch_loop (S (Z.to_nat numThreads)) indicies mem size numThreads i 0 [] 0.

(** [for (BigInt i = 0; i < (indicies.size() - 1); (i += threadsUsed))]:
    the waves that are launched, each joined before the next. *)
Fixpoint stage_loop (fuel : nat) (indicies : list BigInt) (mem : Mem)
  (size : BigInt) (numThreads : Z) (i : BigInt) : result (list (list Task)) :=
  match fuel with
  | O => Err OutOfFuel
  | S fuel' =>
      if i <? last_index indicies then
        wave <- launch_wave indicies mem size numThreads i ;;
        rest <- stage_loop fuel' indicies mem size numThreads
                  (wrap64 (i + u64_of_int (snd wave))) ;;
        Ok (fst wave :: rest)
      else Ok []
  end.

Definition stageCollections (fuel : nat) (indicies : list BigInt) (mem : Mem)
  (size : BigInt) (numThreads : Z) : result (list (list Task)) :=
  stage_loop fuel indicies mem size numThreads 0.

(** What a launched thread computes: [collectCounts] on its arguments. *)
Definition run_task (mem : Mem) (task : Task) : result Tally.Stats :=
  match t_start task with
  | None => Err Unassigned
  | Some start => Tally.collectCounts (t_desc task) start (t_end task) mem
  end.

(** The order in which the results of the waves reach the output: the
    threads of one wave finish in any order, a wave is joined before the
    next one starts. *)
Inductive written {X : Type} : list (list X) -> list X -> Prop :=
| written_nil : written [] []
| written_wave : forall wave waves blocks out,
    Permutation wave blocks ->
    written waves out ->
    written (wave :: waves) (blocks ++ out).

(** A run of the two phases on a mapped file with [numThreads] workers
    that returns, having produced the per-record results [out] in the
    order they were written. *)
Definition pipeline (mem : Mem) (size : BigInt) (numThreads : Z)
  (out : list (result Tally.Stats)) : Prop :=
  exists indicies fuel waves,
    Scanner.getIndicies [] mem size numThreads (Ok indicies) /\
    stageCollections fuel indicies mem size numThreads = Ok waves /\
    written (map (map (run_task mem)) waves) out.

End Dispatcher.

(** ** Result sink: [printStats] *)

Module Sink.

(** [operator<<] of an unsigned count: its decimal digits. *)
Definition dec (n : Z) : list ascii :=
  bytes (DecimalString.NilZero.string_of_uint (N.to_uint (Z.to_N n))).

(** The text [printStats] builds in its local [std::stringstream]. *)
Definition table (s : Tally.Stats) : list ascii :=
  let k := Tally.counts s in
  nl ++ Tally.desc s ++ nl ++ nl
  ++ bytes "G: " ++ dec (Tally.G k) ++ nl
  ++ bytes "C: " ++ dec (Tally.C k) ++ nl
  ++ bytes "A: " ++ dec (Tally.A k) ++ nl
  ++ bytes "T: " ++ dec (Tally.T k) ++ nl
  ++ bytes "N: " ++ dec (Tally.N k) ++ nl
  ++ bytes "-----------------------------------"
  ++ nl ++ bytes "Total: " ++ dec (Tally.total k) ++ nl.

(** Where a thread stands inside [printStats]: its table is built and the
    lock not yet taken; it holds the lock and still has [rest] to put on
    [ofile]; it has left the critical section. *)
Inductive pc : Type :=
| Formatted
| Locked (rest : list ascii)
| Released.

(** The globals [mute] (its owner, if any) and [ofile] (its content), and
    the place of every thread. *)
Record State : Type := mkState {
  mute : option nat;
  ofile : list ascii;
  pcs : nat -> pc
}.

Definition set_pc (k : nat) (p : pc) (f : nat -> pc) : nat -> pc :=
  fun j => if Nat.eqb j k then p else f j.

Definition init (out0 : list ascii) : State :=
  mkState None out0 (fun _ => Formatted).

(** One step of one of the threads [0 .. length tables - 1] inside
    [printStats], thread [k] printing [tables[k]]: the constructor of the [lock_guard], one byte of
    [ofile << table.str()], the destructor of the [lock_guard]. *)
Inductive printStats (tables : list (list ascii)) : State -> State -> Prop :=
| printStats_lock : forall s k tbl,
    nth_error tables k = Some tbl ->
    pcs s k = Formatted ->
    mute s = None ->
    printStats tables s
      (mkState (Some k) (ofile s) (set_pc k (Locked tbl) (pcs s)))
| printStats_write : forall s k c rest,
    pcs s k = Locked (c :: rest) ->
    printStats tables s
      (mkState (mute s) (ofile s ++ [c]) (set_pc k (Locked rest) (pcs s)))
| printStats_unlock : forall s k,
    pcs s k = Locked [] ->
    printStats tables s (mkState None (ofile s) (set_pc k Released (pcs s))).

Inductive reachable (tables : list (list ascii)) (out0 : list ascii)
  : State -> Prop :=
| reach_init : reachable tables out0 (init out0)
| reach_step : forall s s',
    reachable tables out0 s -> printStats tables s s' ->
    reachable tables out0 s'.

Definition table_of (tables : list (list ascii)) (k : nat) : list ascii :=
  nth k tables [].

End Sink.

(** ** Command line: [usage], [readFile], [main] *)

Module Cli.

Inductive stoi_exception : Type := invalid_argument | out_of_range.

Definition code (c : ascii) : Z := Z.of_nat (nat_of_ascii c).

Definition isspace (c : ascii) : bool :=
  (code c =? 32) || ((9 <=? code c) && (code c <=? 13)).

Definition digit (c : ascii) : option Z :=
  if (48 <=? code c) && (code c <=? 57) then Some (code c - 48) else None.

Fixpoint skip_spaces (s : list ascii) : list ascii :=
  match s with
  | c :: s' => if isspace c then skip_spaces s' else s
  | [] => []
  end.

Fixpoint read_digits (s : list ascii) (acc : Z) : Z :=
  match s with
  | c :: s' => match digit c with
               | Some d => read_digits s' (10 * acc + d)
               | None => acc
               end
  | [] => acc
  end.

(** [std::stoi(str)] of the standard library, base 10: leading white space
    is skipped, an optional sign and the longest run of digits are read and
    what follows is ignored; no digit throws [invalid_argument], a value
    outside [int] throws [out_of_range]. *)
Definition stoi (str : string) : Z + stoi_exception :=
  let s := skip_spaces (bytes str) in
  let signed :=
    match s with
    | c :: s' => if Ascii.eqb c "-" then (true, s')
                 else if Ascii.eqb c "+" then (false, s')
                 else (false, s)
    | [] => (false, s)
    end in
  match snd signed with
  | c :: _ =>
      match digit c with
      | Some _ =>
          let v := read_digits (snd signed) 0 in
          let v := if fst signed then - v else v in
          if (INT_MIN <=? v) && (v <=? INT_MAX) then inl v
          else inr out_of_range
      | None => inr invalid_argument
      end
  | [] => inr invalid_argument
  end.

(** The system calls of [readFile]: [open] gives a descriptor ([-1] when
    it fails), [fstat] leaves a value in [sb.st_size], [mmap] gives the
    mapping or [MAP_FAILED] ([None]). *)
Record OS : Type := mkOS {
  os_open : string -> Z;
  os_st_size : Z -> Z;
  os_mmap : Z -> Z -> option Mem
}.

(** What goes to [std::cerr]. *)
Inductive Msg : Type :=
| MsgUsage                       (* the text of [usage()] *)
| MsgMmapFailed                  (* "mmap failed" *)
| MsgWentWrong                   (* "Something went wrong..." *)
| MsgWhat (e : stoi_exception).  (* [e.what()] *)

Definition usage_text : string :=
  "Usage: ./<EXECUTABLE> <PATH_TO_FASTA_FILE> <NUM_THREADS>".

(** What [usage()] sends to [std::cerr]. *)
Definition usage : list Msg := [MsgUsage].

Inductive Flow : Type :=
| Continues                 (* the function returned to its caller *)
| Exits (status : Z)        (* [exit(status)], or [return status] of [main] *)
| Faults (f : fault).

Record Effects : Type := mkEffects {
  stderr : list Msg;
  stdout : list string;
  launched : list (list Dispatcher.Task);
  flow : Flow
}.

(** The status the parent process sees. *)
Definition wait_status (status : Z) : Z := Z.land status 255.

(** [readFile], with the threads of [getIndicies] run one after the other
    (the boundary list is the same under every schedule). *)
Definition readFile (os : OS) (fuel : nat) (numThreads : Z) (file : string)
  : Effects :=
  let fd := os_open os file in
  let st_size := os_st_size os fd in
  match os_mmap os st_size fd with
  | None => mkEffects [MsgMmapFailed] [] [] (Exits (-1))
  | Some mem =>
      let size := wrap64 st_size in
      match Scanner.getIndicies_seq [] mem size numThreads with
      | Err f => mkEffects [] ["Pre-processing..."%string] [] (Faults f)
      | Ok indicies =>
          match Dispatcher.stageCollections fuel indicies mem size numThreads with
          | Err f =>
              mkEffects []
                ["Pre-processing..."; "Done pre-processing...";
                 "Counting nucleotides..."]%string
                [] (Faults f)
          | Ok waves =>
              mkEffects []
                ["Pre-processing..."; "Done pre-processing...";
                 "Counting nucleotides..."; "Done counting nucleotides..."]%string
                waves Continues
          end
      end
  end.

(** [main]; [argc] is the length of [argv]. *)
Definition main (os : OS) (fuel : nat) (argv : list string) : Effects :=
  match argv with
  | [_; filePath; threadsArg] =>
      match stoi threadsArg with
      | inl n =>
          let r := readFile os fuel n filePath in
          match flow r with
          | Continues =>
              mkEffects (stderr r)
                (stdout r ++ ["Output is stored in file named out.txt"%string])
                (launched r) (Exits 0)
          | _ => r
          end
      | inr e => mkEffects (usage ++ [MsgWentWrong; MsgWhat e]) [] [] (Exits 0)
      end
  | _ => mkEffects usage [] [] (Exits 0)
  end.

End Cli.

(** ** The statements of the specification that are compared with the code *)

Module Claimed.

(** The bytes of [l] before its first line break. *)
Fixpoint until_newline (l : list ascii) : list ascii :=
  match l with
  | [] => []
  | c :: l' => if Ascii.eqb c newline then [] else c :: until_newline l'
  end.

(** Header Text of the record [[b, b_next)]: the bytes from [b] up to the
    first line break or [b_next], whichever comes first. *)
Definition header (mem : Mem) (b b_next : Z) : list ascii :=
  until_newline (slice mem b b_next).

(** Start of the Body Range: the position of that line break, or [b_next]
    if there is none before it. *)
Definition body_start (mem : Mem) (b b_next : Z) : Z :=
  b + Z.of_nat (length (header mem b b_next)).

(** The thread arguments of that record. *)
Definition record (mem : Mem) (b b_next : Z) : Dispatcher.Task :=
  Dispatcher.mkTask (header mem b b_next) (Some (body_start mem b b_next)) b_next.

(** Size of a sub-range of the boundary scanner: the ceiling of
    [size / w]. *)
Definition chunk_size (size w : Z) : Z := (size + w - 1) / w.

(** The sub-ranges of the boundary scanner: [w] ranges that follow one
    another from [0] to [size], each of [chunk_size size w] bytes but the
    last, which ends at [size]. *)
Definition partition (size w : Z) (ranges : list (Z * Z)) : Prop :=
  Z.of_nat (length ranges) = w /\
  concat (map (fun r => offsets (fst r) (snd r)) ranges) = offsets 0 size /\
  forall (k : nat) (r : Z * Z),
    nth_error ranges k = Some r -> Z.of_nat k < w - 1 ->
    snd r - fst r = chunk_size size w.

End Claimed.

(** Position of the first line break found by a scan of [rest] that
    starts at the offset [i], if there is one. *)
Definition ending_from (i : Z) (rest : list ascii) : option Z :=
  if existsb (fun c => Ascii.eqb c newline) rest
  then Some (i + Z.of_nat (length (Claimed.until_newline rest)))
  else None.

(** Position of the first line break of [mem] in [[start, size)]. *)
Definition first_newline (mem : Mem) (start size : Z) : option Z :=
  ending_from start (slice mem start size).

(** The thread arguments of record [k] of the boundary list: the header
    scan runs from [indicies[k]] to the end of the file. *)
Definition task_of (indicies : list Z) (mem : Mem) (size : Z) (k : Z)
  : Dispatcher.Task :=
  let b := nth (Z.to_nat k) indicies 0 in
  Dispatcher.mkTask
    (Claimed.until_newline (slice mem b size))
    (first_newline mem b size)
    (nth (Z.to_nat (k + 1)) indicies 0).

(** The thread arguments of the records [lo], ..., [hi - 1]. *)
Definition tasks_of (indicies : list Z) (mem : Mem) (size : Z) (lo hi : Z)
  : list Dispatcher.Task :=
  map (task_of indicies mem size) (offsets lo hi).

(** Whether the byte of [mem] at the offset [p] is a header marker. *)
Definition marker_at (mem : Mem) (p : Z) : bool :=
  match nth_error mem (Z.to_nat p) with
  | Some c => Ascii.eqb c marker
  | None => false
  end.

(** Offsets of the header markers of [mem] in [[lo, hi)], ascending. *)
Definition markers_in (mem : Mem) (lo hi : Z) : list Z :=
  filter (marker_at mem) (offsets lo hi).

(** The offsets a range of the scanner covers. *)
Definition range_offsets (r : Z * Z) : list Z := offsets (fst r) (snd r).

(** The range of chunk [k] when no operation wraps: [chunkSize] is the
    quotient [size / w], the last chunk ends at [size]. *)
Definition floor_range (size w k : Z) : Z * Z :=
  (k * (size / w), if k =? w - 1 then size else (k + 1) * (size / w)).

(** Strictly ascending lists of offsets. *)
Definition ascending (l : list Z) : Prop := StronglySorted Z.lt l.

(** [1] when the byte [c] is the symbol [x], [0] otherwise. *)
Definition hit (x c : ascii) : Z := if Ascii.eqb c x then 1 else 0.

(** All six counters of [k] lie in [0 .. bound - 1]. *)
Definition below (bound : Z) (k : Tally.Counts) : Prop :=
  (0 <= Tally.G k < bound) /\ (0 <= Tally.C k < bound) /\ (0 <= Tally.A k < bound) /\
  (0 <= Tally.T k < bound) /\ (0 <= Tally.N k < bound) /\ (0 <= Tally.total k < bound).

(** What ties a state of the printing threads to the blocks written so
    far: [order] lists the threads that have left the critical section, in
    the order they left it, and [partial] is what the owner of the lock
    has written of its own table. *)
Record consistent (tables : list (list ascii)) (out0 : list ascii)
  (s : Sink.State) (order : list nat) (partial : list ascii) : Prop :=
  mkConsistent {
    released_once : NoDup order;
    released_listed : forall k, In k order <-> Sink.pcs s k = Sink.Released;
    written_blocks :
      Sink.ofile s
      = out0 ++ concat (map (Sink.table_of tables) order) ++ partial;
    lock_owner :
      match Sink.mute s with
      | None => partial = [] /\ forall k rest, Sink.pcs s k <> Sink.Locked rest
      | Some h =>
          exists rest,
            Sink.pcs s h = Sink.Locked rest /\
            Sink.table_of tables h = partial ++ rest /\
            forall k rest', Sink.pcs s k = Sink.Locked rest' -> k = h
      end;
    started_threads :
      forall k, Sink.pcs s k <> Sink.Formatted -> (k < length tables)%nat
  }.

(** A system where the input file cannot be opened. *)
Definition no_file : Cli.OS :=
  Cli.mkOS (fun _ => -1) (fun _ => 0) (fun _ _ => None).

(** A system where every path maps the bytes [mem]. *)
Definition one_file (mem : Mem) : Cli.OS :=
  Cli.mkOS (fun _ => 3) (fun _ => Z.of_nat (length mem)) (fun _ _ => Some mem).

(** The counters of a list of bytes. *)
Definition tally (l : list ascii) : Tally.Counts :=
  Tally.mkCounts (Tally.occ "G" l) (Tally.occ "C" l) (Tally.occ "A" l)
    (Tally.occ "T" l) (Tally.occ "N" l)
    (Tally.occ "G" l + Tally.occ "C" l + Tally.occ "A" l
     + Tally.occ "T" l + Tally.occ "N" l).

(** Counter by counter sum. *)
Definition add_counts (a b : Tally.Counts) : Tally.Counts :=
  Tally.mkCounts (Tally.G a + Tally.G b) (Tally.C a + Tally.C b)
    (Tally.A a + Tally.A b) (Tally.T a + Tally.T b) (Tally.N a + Tally.N b)
    (Tally.total a + Tally.total b).

(** The boundary list of a file: the offsets of its header markers, then
    the sentinel. *)
Definition boundaries (mem : Mem) (size : Z) : list Z :=
  markers_in mem 0 size ++ [size].

(** The result of the record that starts at the boundary [b] and ends at
    the boundary [e]: its header line and the counters of the bytes from
    the line break of the header to [e]; nothing defined when no line
    break follows [b]. *)
Definition record_result (mem : Mem) (size b e : Z) : result Tally.Stats :=
  match first_newline mem b size with
  | Some p => Ok (Tally.mkStats (slice mem b p) (tally (slice mem p e)))
  | None => Err Unassigned
  end.

(** What is left to do for a thread inside [printStats]: the bytes it has
    still to write, and its lock and unlock steps. *)
Definition steps_left (tbl : list ascii) (p : Sink.pc) : nat :=
  match p with
  | Sink.Formatted => length tbl + 2
  | Sink.Locked rest => length rest + 1
  | Sink.Released => 0
  end.

(** The steps left for the threads [0 .. length tables - 1] together. *)
Definition work_left (tables : list (list ascii)) (pcs : nat -> Sink.pc) : nat :=
  list_sum (map (fun k => steps_left (Sink.table_of tables k) (pcs k))
                (seq 0 (length tables))).

(** Runs of [n] steps of the printing threads. *)
Inductive run (tables : list (list ascii)) : nat -> Sink.State -> Sink.State -> Prop :=
| run_stop : forall s, run tables 0 s s
| run_step : forall n s s' s'',
    Sink.printStats tables s s' -> run tables n s' s'' ->
    run tables (S n) s s''.

(** The thread launched with the arguments [task] when the never assigned
    [des.ending] holds the value [stale]: [collectCounts] runs from the
    start that was assigned, and from [stale] when none was. *)
Definition run_task_stale (stale : Z) (mem : Mem) (task : Dispatcher.Task)
  : result Tally.Stats :=
  Tally.collectCounts (Dispatcher.t_desc task)
    (match Dispatcher.t_start task with
     | Some start => start
     | None => stale
     end)
    (Dispatcher.t_end task) mem.

(** * Properties *)

(** ** Integers, memory and slices *)

Lemma wrap64_small (z : Z) : 0 <= z < 2 ^ 64 -> wrap64 z = z.
Proof. intros H. unfold wrap64. now apply Z.mod_small. Qed.

Lemma u64_of_int_nonneg (i : Z) : 0 <= i < 2 ^ 64 -> u64_of_int i = i.
Proof. apply wrap64_small. Qed.

Lemma INT_MAX_small : INT_MAX < 2 ^ 63.
Proof. now vm_compute. Qed.

Lemma two63_lt_two64 : 2 ^ 63 < 2 ^ 64.
Proof. now vm_compute. Qed.

Lemma INT_MIN_INT_MAX : INT_MIN = - INT_MAX - 1.
Proof. now vm_compute. Qed.

Lemma u64_of_int_small (i : Z) : 0 <= i <= INT_MAX -> u64_of_int i = i.
Proof.
  intros H. apply wrap64_small.
  pose proof INT_MAX_small. pose proof two63_lt_two64. lia.
Qed.

Lemma mem_at_in_range (mem : Mem) (i : Z) :
  0 <= i < Z.of_nat (length mem) ->
  exists c, nth_error mem (Z.to_nat i) = Some c /\ mem_at mem i = Ok c.
Proof.
  intros H. unfold mem_at.
  destruct (Z.ltb_spec i 0); [lia|].
  destruct (nth_error mem (Z.to_nat i)) as [c|] eqn:E.
  - now exists c.
  - apply nth_error_None in E. lia.
Qed.

Lemma skipn_nth_cons {X : Type} (l : list X) (n : nat) (x : X) :
  nth_error l n = Some x -> skipn n l = x :: skipn (S n) l.
Proof.
  revert n. induction l as [|y l IH]; intros [|n] H; simpl in *; try discriminate.
  - now inversion H.
  - now apply IH.
Qed.

Lemma slice_empty (mem : Mem) (i : Z) : slice mem i i = [].
Proof. unfold slice. now rewrite Z.sub_diag. Qed.

Lemma slice_cons (mem : Mem) (i hi : Z) (c : ascii) :
  0 <= i < hi ->
  nth_error mem (Z.to_nat i) = Some c ->
  slice mem i hi = c :: slice mem (i + 1) hi.
Proof.
  intros H E. unfold slice.
  rewrite (skipn_nth_cons _ _ _ E).
  replace (Z.to_nat (hi - i)) with (S (Z.to_nat (hi - (i + 1)))) by lia.
  replace (Z.to_nat (i + 1)) with (S (Z.to_nat i)) by lia.
  reflexivity.
Qed.

(** ** Symbol tally *)

Section TallyFacts.
Import Tally.

Lemma occ_nil (x : ascii) : occ x [] = 0.
Proof. reflexivity. Qed.

Lemma occ_cons (x c : ascii) (l : list ascii) :
  occ x (c :: l) = hit x c + occ x l.
Proof.
  unfold occ, hit. simpl.
  destruct (ascii_dec c x) as [->|n].
  - rewrite Ascii.eqb_refl. lia.
  - destruct (Ascii.eqb_spec c x); [contradiction|lia].
Qed.

Lemma occ_nonneg (x : ascii) (l : list ascii) : 0 <= occ x l.
Proof. unfold occ. lia. Qed.

Lemma hit_range (x c : ascii) : 0 <= hit x c <= 1.
Proof. unfold hit. destruct (Ascii.eqb c x); lia. Qed.

Lemma count_nucleotide_hits (c : ascii) (k : Counts) :
  below (2 ^ 64 - 1) k ->
  count_nucleotide c k =
  mkCounts (G k + hit "G" c) (C k + hit "C" c) (A k + hit "A" c)
           (T k + hit "T" c) (N k + hit "N" c)
           (total k + (hit "G" c + hit "C" c + hit "A" c + hit "T" c + hit "N" c)).
Proof.
  intros (HG & HC & HA & HT & HN & Htot).
  unfold count_nucleotide, hit.
  destruct (Ascii.eqb_spec c "G") as [->|_]; simpl.
  { rewrite !wrap64_small by lia. f_equal; lia. }
  destruct (Ascii.eqb_spec c "C") as [->|_]; simpl.
  { rewrite !wrap64_small by lia. f_equal; lia. }
  destruct (Ascii.eqb_spec c "A") as [->|_]; simpl.
  { rewrite !wrap64_small by lia. f_equal; lia. }
  destruct (Ascii.eqb_spec c "T") as [->|_]; simpl.
  { rewrite !wrap64_small by lia. f_equal; lia. }
  destruct (Ascii.eqb_spec c "N") as [->|_]; simpl.
  { rewrite !wrap64_small by lia. f_equal; lia. }
  destruct k; simpl. f_equal; lia.
Qed.

Lemma hits_is_nucleotide (c : ascii) :
  hit "G" c + hit "C" c + hit "A" c + hit "T" c + hit "N" c =
  if is_nucleotide c then 1 else 0.
Proof.
  unfold is_nucleotide, hit.
  destruct (Ascii.eqb_spec c "G") as [->|]; [reflexivity|].
  destruct (Ascii.eqb_spec c "C") as [->|]; [reflexivity|].
  destruct (Ascii.eqb_spec c "A") as [->|]; [reflexivity|].
  destruct (Ascii.eqb_spec c "T") as [->|]; [reflexivity|].
  destruct (Ascii.eqb_spec c "N") as [->|]; reflexivity.
Qed.

Lemma count_loop_S (fuel : nat) (mem : Mem) (i end_ : Z) (k : Counts) :
  count_loop (S fuel) mem i end_ k =
  if i <? end_ then
    nucleotide <- mem_at mem i ;;
    count_loop fuel mem (wrap64 (i + 1)) end_ (count_nucleotide nucleotide k)
  else Ok k.
Proof. reflexivity. Qed.

Lemma count_loop_slice (mem : Mem) (end_ : Z) :
  end_ <= Z.of_nat (length mem) -> Z.of_nat (length mem) < 2 ^ 64 ->
  forall (n : nat) (i : Z) (k : Counts),
    Z.of_nat n = end_ - i -> 0 <= i ->
    below (2 ^ 64 - Z.of_nat n) k ->
    count_loop (S n) mem i end_ k =
    Ok (let l := slice mem i end_ in
        mkCounts (G k + occ "G" l) (C k + occ "C" l) (A k + occ "A" l)
                 (T k + occ "T" l) (N k + occ "N" l)
                 (total k + (occ "G" l + occ "C" l + occ "A" l
                             + occ "T" l + occ "N" l))).
Proof.
  intros Hend Hlen. induction n as [|n IH]; intros i k Hn Hi Hk.
  - assert (i = end_) by lia. subst i. simpl.
    rewrite Z.ltb_irrefl, slice_empty. rewrite !occ_nil.
    destruct k; simpl. do 2 f_equal; lia.
  - rewrite count_loop_S. destruct (Z.ltb_spec i end_); [|lia].
    destruct (mem_at_in_range mem i) as (c & Hnth & ->); [lia|].
    cbn [bind]. rewrite (wrap64_small (i + 1)) by lia.
    assert (Hk' : below (2 ^ 64 - 1) k).
    { unfold below in *. lia. }
    rewrite (count_nucleotide_hits c k Hk').
    rewrite IH; [|lia|lia|].
    + rewrite (slice_cons mem i end_ c) by (auto; lia).
      cbn zeta. rewrite !occ_cons. cbn [G C A T N total].
      do 2 f_equal; lia.
    + pose proof (hit_range "G" c). pose proof (hit_range "C" c).
      pose proof (hit_range "A" c). pose proof (hit_range "T" c).
      pose proof (hit_range "N" c).
      assert (hit "G" c + hit "C" c + hit "A" c + hit "T" c + hit "N" c <= 1).
      { rewrite hits_is_nucleotide. destruct (is_nucleotide c); lia. }
      unfold below in *. cbn [G C A T N total]. lia.
Qed.

Lemma nucleotides_filter (l : list ascii) :
  occ "G" l + occ "C" l + occ "A" l + occ "T" l + occ "N" l =
  Z.of_nat (length (filter is_nucleotide l)).
Proof.
  induction l as [|c l IH]; [reflexivity|].
  rewrite !occ_cons. cbn [filter].
  pose proof (hits_is_nucleotide c) as Hc.
  destruct (is_nucleotide c); cbn [length]; lia.
Qed.

(** C1. On a mapped file of [size] bytes and a range
    [start <= end_ <= size], [collectCounts] returns, and hands to
    [printStats] the description it was given and counters where each of
    G, C, A, T, N is the number of occurrences of that uppercase byte in
    [[start, end_)], and [total] is their sum, which is the number of
    bytes of the range that are one of the five symbols: no other byte
    moves a counter. *)
Theorem collectCounts_counts_range (desc : list ascii) (mem : Mem)
  (start end_ : Z) :
  0 <= start -> start <= end_ -> end_ <= Z.of_nat (length mem) ->
  Z.of_nat (length mem) < 2 ^ 64 ->
  exists k,
    collectCounts desc start end_ mem = Ok (mkStats desc k) /\
    G k = occ "G" (slice mem start end_) /\
    C k = occ "C" (slice mem start end_) /\
    A k = occ "A" (slice mem start end_) /\
    T k = occ "T" (slice mem start end_) /\
    N k = occ "N" (slice mem start end_) /\
    total k = G k + C k + A k + T k + N k /\
    total k = Z.of_nat (length (filter is_nucleotide (slice mem start end_))).
Proof.
  intros H0 Hse Hend Hlen. unfold collectCounts.
  rewrite (count_loop_slice mem end_ Hend Hlen (Z.to_nat (end_ - start))); try lia.
  - cbn [bind]. eexists. split; [reflexivity|]. cbn [G C A T N total zero].
    repeat split; try reflexivity; try lia.
    apply nucleotides_filter.
  - unfold below, zero. cbn [G C A T N total]. lia.
Qed.

Lemma collectCounts_counts_range_witness :
  exists k,
    collectCounts (bytes ">s") 2 7 (bytes ">sGgCAT N") = Ok (mkStats (bytes ">s") k) /\
    G k = 1 /\ C k = 1 /\ A k = 1 /\ T k = 1 /\ N k = 0 /\ total k = 4.
Proof.
  destruct (collectCounts_counts_range (bytes ">s") (bytes ">sGgCAT N") 2 7)
    as (k & E & HG & HC & HA & HT & HN & Htot & _);
    [lia | lia | now vm_compute | now vm_compute |].
  exists k. split; [exact E|].
  rewrite Htot, HG, HC, HA, HT, HN. now vm_compute.
Defined.

End TallyFacts.

(** ** Offsets and ranges *)

Lemma offsets_empty (lo hi : Z) : hi <= lo -> offsets lo hi = [].
Proof.
  intros H. unfold offsets. now replace (Z.to_nat (hi - lo)) with O by lia.
Qed.

Lemma offsets_cons (lo hi : Z) :
  lo < hi -> offsets lo hi = lo :: offsets (lo + 1) hi.
Proof.
  intros H. unfold offsets.
  replace (Z.to_nat (hi - lo)) with (S (Z.to_nat (hi - (lo + 1)))) by lia.
  cbn [seq map]. f_equal; [lia|].
  rewrite <- seq_shift, map_map. apply map_ext. intros k. lia.
Qed.

Lemma map_seq_shift {X : Type} (f : nat -> X) (m n s : nat) :
  map f (seq (m + s) n) = map (fun k => f (m + k)%nat) (seq s n).
Proof.
  revert s. induction n as [|n IH]; intros s; [reflexivity|].
  cbn [seq map]. f_equal. rewrite <- IH. now rewrite Nat.add_succ_r.
Qed.

Lemma offsets_app (a b c : Z) :
  a <= b -> b <= c -> offsets a b ++ offsets b c = offsets a c.
Proof.
  intros Hab Hbc. unfold offsets.
  replace (Z.to_nat (c - a)) with (Z.to_nat (b - a) + Z.to_nat (c - b))%nat by lia.
  rewrite seq_app, map_app. f_equal.
  rewrite Nat.add_0_l.
  rewrite <- (Nat.add_0_r (Z.to_nat (b - a))).
  rewrite (map_seq_shift _ (Z.to_nat (b - a)) _ 0%nat).
  apply map_ext. intros k. lia.
Qed.

Lemma in_offsets (lo hi p : Z) : In p (offsets lo hi) <-> lo <= p < hi.
Proof.
  unfold offsets. rewrite in_map_iff. split.
  - intros (k & <- & Hk). apply in_seq in Hk. lia.
  - intros H. exists (Z.to_nat (p - lo)). split; [lia|].
    apply in_seq. lia.
Qed.

Lemma offsets_ascending (lo hi : Z) : ascending (offsets lo hi).
Proof.
  unfold ascending.
  remember (Z.to_nat (hi - lo)) as n eqn:Hn.
  revert lo Hn. induction n as [|n IH]; intros lo Hn.
  - rewrite offsets_empty by lia. constructor.
  - rewrite offsets_cons by lia. constructor.
    + apply IH. lia.
    + apply Forall_forall. intros p Hp. apply in_offsets in Hp. lia.
Qed.

Lemma ascending_filter (f : Z -> bool) (l : list Z) :
  ascending l -> ascending (filter f l).
Proof.
  unfold ascending. induction 1 as [|x l Hl IH Hx]; cbn [filter]; [constructor|].
  destruct (f x); [|exact IH].
  constructor; [exact IH|].
  apply Forall_forall. intros y Hy. apply filter_In in Hy.
  rewrite Forall_forall in Hx. now apply Hx.
Qed.

Lemma ascending_snoc (l : list Z) (top : Z) :
  ascending l -> Forall (fun p => p < top) l -> ascending (l ++ [top]).
Proof.
  unfold ascending. induction 1 as [|x l Hl IH Hx]; intros Hb; cbn [app].
  - repeat constructor.
  - inversion Hb as [|? ? Hxt Hlt]; subst.
    constructor; [now apply IH|].
    apply Forall_app. split; [exact Hx|]. now constructor.
Qed.

Lemma markers_in_ascending (mem : Mem) (lo hi : Z) :
  ascending (markers_in mem lo hi).
Proof. apply ascending_filter, offsets_ascending. Qed.

Lemma in_markers_in (mem : Mem) (lo hi p : Z) :
  In p (markers_in mem lo hi) <-> lo <= p < hi /\ marker_at mem p = true.
Proof. unfold markers_in. rewrite filter_In, in_offsets. tauto. Qed.

Lemma markers_in_cons (mem : Mem) (lo hi : Z) :
  lo < hi ->
  markers_in mem lo hi =
  (if marker_at mem lo then [lo] else []) ++ markers_in mem (lo + 1) hi.
Proof.
  intros H. unfold markers_in. rewrite offsets_cons by lia.
  cbn [filter]. now destruct (marker_at mem lo).
Qed.

(** ** The sort *)

Section SortFacts.
Import Scanner.

Lemma sort_insert_comm (x y : Z) (l : list Z) :
  sort_insert x (sort_insert y l) = sort_insert y (sort_insert x l).
Proof.
  induction l as [|z l IH]; cbn [sort_insert];
    repeat match goal with
           | |- context [?a <? ?b] =>
               destruct (Z.ltb_spec a b); cbn [sort_insert]
           end;
    try lia; try reflexivity;
    try (now rewrite IH); now replace y with x by lia.
Qed.

Lemma std_sort_perm (l1 l2 : list Z) :
  Permutation l1 l2 -> std_sort l1 = std_sort l2.
Proof.
  induction 1 as [|x l1 l2 _ IH|x y l|l1 l2 l3 _ IH1 _ IH2]; cbn [std_sort].
  - reflexivity.
  - now rewrite IH.
  - apply sort_insert_comm.
  - now rewrite IH1.
Qed.

Lemma std_sort_ascending (l : list Z) : ascending l -> std_sort l = l.
Proof.
  unfold ascending. induction 1 as [|x l Hl IH Hx]; [reflexivity|].
  cbn [std_sort]. rewrite IH.
  destruct l as [|y l]; [reflexivity|].
  cbn [sort_insert]. inversion Hx; subst.
  destruct (Z.ltb_spec y x); [lia|reflexivity].
Qed.

Lemma sort_insert_perm (x : Z) (l : list Z) :
  Permutation (x :: l) (sort_insert x l).
Proof.
  induction l as [|y l IH]; cbn [sort_insert]; [reflexivity|].
  destruct (y <? x); [|reflexivity].
  rewrite perm_swap. now apply perm_skip.
Qed.

Lemma std_sort_permutation (l : list Z) : Permutation l (std_sort l).
Proof.
  induction l as [|x l IH]; cbn [std_sort]; [reflexivity|].
  rewrite <- sort_insert_perm. now apply perm_skip.
Qed.

End SortFacts.

(** ** Boundary scanner *)

Section ScannerFacts.
Import Scanner.

Lemma scan_loop_S (fuel : nat) (mem : Mem) (i end_ : Z) (pushed : list Z) :
  scan_loop (S fuel) mem i end_ pushed =
  if i <? end_ then
    c <- mem_at mem i ;;
    scan_loop fuel mem (wrap64 (i + 1)) end_
      (if Ascii.eqb c marker then pushed ++ [i] else pushed)
  else Ok pushed.
Proof. reflexivity. Qed.

Lemma scan_loop_markers (mem : Mem) (end_ : Z) :
  end_ <= Z.of_nat (length mem) -> Z.of_nat (length mem) < 2 ^ 64 ->
  forall (n : nat) (i : Z) (pushed : list Z),
    Z.of_nat n = end_ - i -> 0 <= i ->
    scan_loop (S n) mem i end_ pushed = Ok (pushed ++ markers_in mem i end_).
Proof.
  intros Hend Hlen. induction n as [|n IH]; intros i pushed Hn Hi.
  - rewrite scan_loop_S. destruct (Z.ltb_spec i end_); [lia|].
    unfold markers_in. rewrite offsets_empty by lia. cbn [filter].
    now rewrite app_nil_r.
  - rewrite scan_loop_S. destruct (Z.ltb_spec i end_); [|lia].
    destruct (mem_at_in_range mem i) as (c & Hnth & ->); [lia|].
    cbn [bind]. rewrite (wrap64_small (i + 1)) by lia.
    rewrite IH by lia. rewrite (markers_in_cons mem i end_) by lia.
    unfold marker_at at 1. rewrite Hnth.
    destruct (Ascii.eqb c marker); cbn [app]; [|reflexivity].
    now rewrite <- app_assoc.
Qed.

Lemma processChunks_markers (mem : Mem) (start end_ : Z) :
  0 <= start -> end_ <= Z.of_nat (length mem) ->
  Z.of_nat (length mem) < 2 ^ 64 ->
  processChunks mem start end_ = Ok (markers_in mem start end_).
Proof.
  intros Hs He Hlen. unfold processChunks.
  destruct (Z.le_gt_cases start end_) as [Hle|Hgt].
  - now rewrite (scan_loop_markers mem end_ He Hlen) by lia.
  - replace (Z.to_nat (end_ - start)) with O by lia.
    rewrite scan_loop_S. destruct (Z.ltb_spec start end_); [lia|].
    unfold markers_in. now rewrite offsets_empty by lia.
Qed.

Lemma thread_pushes_markers (mem : Mem) (ranges : list (Z * Z)) :
  Z.of_nat (length mem) < 2 ^ 64 ->
  Forall (fun r => 0 <= fst r /\ snd r <= Z.of_nat (length mem)) ranges ->
  thread_pushes mem ranges =
  Ok (map (fun r => markers_in mem (fst r) (snd r)) ranges).
Proof.
  intros Hlen. induction 1 as [|[s e] ranges [Hs He] _ IH]; [reflexivity|].
  cbn [thread_pushes fst snd] in *.
  rewrite processChunks_markers by assumption. cbn [bind].
  now rewrite IH.
Qed.

Lemma concat_markers (mem : Mem) (ranges : list (Z * Z)) :
  concat (map (fun r => markers_in mem (fst r) (snd r)) ranges) =
  filter (marker_at mem) (concat (map range_offsets ranges)).
Proof.
  induction ranges as [|r ranges IH]; [reflexivity|].
  cbn [map concat]. now rewrite filter_app, IH.
Qed.

(** *** The ranges of the chunks *)

Lemma u64_of_int_zero (w : Z) :
  INT_MIN <= w <= INT_MAX -> (u64_of_int w =? 0) = (w =? 0).
Proof.
  intros H. pose proof INT_MAX_small. pose proof two63_lt_two64.
  pose proof INT_MIN_INT_MAX. unfold u64_of_int, wrap64.
  destruct (Z.eqb_spec w 0) as [->|Hw]; [reflexivity|].
  apply Z.eqb_neq. intros E.
  apply Z.mod_divide in E; [|lia].
  destruct E as [q Hq]. nia.
Qed.

Lemma chunk_range_floor (size w k : Z) :
  0 <= size < 2 ^ 64 -> 0 <= k < w -> w <= INT_MAX ->
  chunk_range size (size / w) w k = floor_range size w k.
Proof.
  intros Hsize Hk Hw. unfold chunk_range, floor_range.
  assert (Hcs : 0 <= size / w) by (apply Z.div_pos; lia).
  assert (Hmul : w * (size / w) <= size) by (apply Z.mul_div_le; lia).
  rewrite (u64_of_int_small k) by lia.
  generalize dependent (size / w). intros cs Hcs Hmul.
  assert (Hk1 : (k + 1) * cs <= w * cs)
    by (apply Z.mul_le_mono_nonneg_r; lia).
  assert (Hk0 : 0 <= k * cs) by (apply Z.mul_nonneg_nonneg; lia).
  rewrite (wrap64_small (k * cs)) by lia.
  destruct (k =? w - 1); [reflexivity|].
  rewrite wrap64_small by lia. f_equal. lia.
Qed.

Lemma chunk_ranges_floor (size w : Z) :
  0 <= size < 2 ^ 64 -> 1 <= w <= INT_MAX ->
  chunk_ranges size w =
  Ok (map (fun k => floor_range size w (Z.of_nat k)) (seq 0 (Z.to_nat w))).
Proof.
  intros Hsize Hw. unfold chunk_ranges.
  pose proof INT_MIN_INT_MAX.
  rewrite u64_of_int_zero by lia.
  destruct (Z.eqb_spec w 0); [lia|].
  rewrite (u64_of_int_small w) by lia.
  f_equal. apply map_ext_in. intros k Hk. apply in_seq in Hk.
  apply chunk_range_floor; lia.
Qed.

Lemma floor_ranges_prefix (size w : Z) (m : nat) :
  0 <= size -> 1 <= w -> Z.of_nat m <= w - 1 ->
  concat (map (fun k => range_offsets (floor_range size w (Z.of_nat k)))
              (seq 0 m)) =
  offsets 0 (Z.of_nat m * (size / w)).
Proof.
  intros Hsize Hw. induction m as [|m IH]; intros Hm.
  - now rewrite offsets_empty by lia.
  - rewrite seq_S, map_app, concat_app, IH by lia.
    cbn [map concat plus]. rewrite app_nil_r.
    unfold range_offsets, floor_range. cbn [fst snd].
    destruct (Z.eqb_spec (Z.of_nat m) (w - 1)); [lia|].
    assert (0 <= size / w) by (apply Z.div_pos; lia).
    generalize dependent (size / w). intros cs _ Hcs.
    assert (0 <= Z.of_nat m * cs) by (apply Z.mul_nonneg_nonneg; lia).
    rewrite offsets_app by lia. f_equal. lia.
Qed.

Lemma floor_ranges_cover (size w : Z) :
  0 <= size -> 1 <= w ->
  concat (map range_offsets
            (map (fun k => floor_range size w (Z.of_nat k))
                 (seq 0 (Z.to_nat w)))) =
  offsets 0 size.
Proof.
  intros Hsize Hw. rewrite map_map.
  replace (Z.to_nat w) with (S (Z.to_nat (w - 1))) by lia.
  rewrite seq_S, map_app, concat_app, floor_ranges_prefix by lia.
  cbn [map concat plus]. rewrite app_nil_r.
  unfold range_offsets, floor_range. cbn [fst snd].
  destruct (Z.eqb_spec (Z.of_nat (Z.to_nat (w - 1))) (w - 1)); [|lia].
  assert (0 <= size / w) by (apply Z.div_pos; lia).
  assert (w * (size / w) <= size) by (apply Z.mul_div_le; lia).
  generalize dependent (size / w). intros cs Hcs Hmul.
  assert (0 <= Z.of_nat (Z.to_nat (w - 1)) * cs)
    by (apply Z.mul_nonneg_nonneg; lia).
  apply offsets_app; lia.
Qed.

Lemma floor_ranges_inside (size w : Z) :
  0 <= size -> 1 <= w ->
  Forall (fun r => 0 <= fst r /\ snd r <= size)
    (map (fun k => floor_range size w (Z.of_nat k)) (seq 0 (Z.to_nat w))).
Proof.
  intros Hsize Hw. apply Forall_forall. intros r Hr.
  apply in_map_iff in Hr. destruct Hr as (k & <- & Hk). apply in_seq in Hk.
  unfold floor_range. cbn [fst snd].
  assert (0 <= size / w) by (apply Z.div_pos; lia).
  assert (w * (size / w) <= size) by (apply Z.mul_div_le; lia).
  generalize dependent (size / w). intros cs Hcs Hmul.
  assert ((Z.of_nat k + 1) * cs <= w * cs)
    by (apply Z.mul_le_mono_nonneg_r; lia).
  split; [apply Z.mul_nonneg_nonneg; lia|].
  destruct (Z.of_nat k =? w - 1); lia.
Qed.

(** *** Schedules of the scanning threads *)

Lemma concat_all_nil {X : Type} (ls : list (list X)) :
  Forall (fun l => l = []) ls -> concat ls = [].
Proof. induction 1 as [|l ls -> _ IH]; [reflexivity|exact IH]. Qed.

Lemma interleave_permutation {X : Type} (ls : list (list X)) (out : list X) :
  interleave ls out -> Permutation (concat ls) out.
Proof.
  induction 1 as [ls Hnil|ls1 x xs ls2 out _ IH].
  - now rewrite concat_all_nil.
  - rewrite concat_app in *. cbn [concat app] in *.
    rewrite <- Permutation_middle. now apply perm_skip.
Qed.

Lemma interleave_idle {X : Type} (ls : list (list X)) (out : list X) :
  interleave ls out -> interleave ([] :: ls) out.
Proof.
  induction 1 as [ls Hnil|ls1 x xs ls2 out _ IH].
  - constructor. now constructor.
  - apply (interleave_push ([] :: ls1)). exact IH.
Qed.

Lemma interleave_sequential {X : Type} (ls : list (list X)) :
  interleave ls (concat ls).
Proof.
  induction ls as [|l ls IH]; [now constructor|].
  cbn [concat]. induction l as [|x l IHl].
  - now apply interleave_idle.
  - apply (interleave_push [] x l ls). exact IHl.
Qed.

(** *** The boundary list *)

Lemma markers_below (mem : Mem) (lo hi : Z) :
  Forall (fun p => p < hi) (markers_in mem lo hi).
Proof.
  apply Forall_forall. intros p Hp. apply in_markers_in in Hp. lia.
Qed.

Lemma boundaries_ascending (mem : Mem) (size : Z) :
  ascending (markers_in mem 0 size ++ [size]).
Proof.
  apply ascending_snoc; [apply markers_in_ascending|apply markers_below].
Qed.

Lemma scanned_pushes (mem : Mem) (size w : Z) :
  size = Z.of_nat (length mem) -> size < 2 ^ 64 -> 1 <= w <= INT_MAX ->
  exists ranges pushes,
    chunk_ranges size w = Ok ranges /\
    thread_pushes mem ranges = Ok pushes /\
    concat pushes = markers_in mem 0 size.
Proof.
  intros Hsize Hlen Hw.
  assert (H0 : 0 <= size) by lia.
  eexists. eexists. split; [apply chunk_ranges_floor; lia|].
  split.
  - apply thread_pushes_markers; [lia|].
    rewrite <- Hsize. apply floor_ranges_inside; lia.
  - rewrite concat_markers, floor_ranges_cover by lia. reflexivity.
Qed.

Lemma getIndicies_boundaries (mem : Mem) (size w : Z) (r : result (list Z)) :
  size = Z.of_nat (length mem) -> size < 2 ^ 64 -> 1 <= w <= INT_MAX ->
  getIndicies [] mem size w r ->
  r = Ok (markers_in mem 0 size ++ [size]).
Proof.
  intros Hsize Hlen Hw Hrun.
  destruct (scanned_pushes mem size w Hsize Hlen Hw)
    as (ranges & pushes & Hr & Hp & Hc).
  inversion Hrun as [f E|ranges' f E1 E2|ranges' pushes' shared E1 E2 Hil];
    subst; try congruence.
  rewrite Hr in E1. inversion E1; subst ranges'.
  rewrite Hp in E2. inversion E2; subst pushes'.
  f_equal. cbn [app].
  rewrite <- (std_sort_ascending _ (boundaries_ascending mem (Z.of_nat (length mem)))).
  apply std_sort_perm, Permutation_app_tail.
  rewrite <- Hc. symmetry. now apply interleave_permutation.
Qed.

Lemma getIndicies_returns (mem : Mem) (size w : Z) :
  size = Z.of_nat (length mem) -> size < 2 ^ 64 -> 1 <= w <= INT_MAX ->
  getIndicies [] mem size w (Ok (markers_in mem 0 size ++ [size])).
Proof.
  intros Hsize Hlen Hw.
  destruct (scanned_pushes mem size w Hsize Hlen Hw)
    as (ranges & pushes & Hr & Hp & Hc).
  pose proof (getIndicies_sorted [] mem size w ranges pushes (concat pushes)
                Hr Hp (interleave_sequential pushes)) as Hrun.
  cbn [app] in Hrun. rewrite Hc in Hrun.
  now rewrite (std_sort_ascending _ (boundaries_ascending mem size)) in Hrun.
Qed.

Lemma getIndicies_seq_boundaries (mem : Mem) (size w : Z) :
  size = Z.of_nat (length mem) -> size < 2 ^ 64 -> 1 <= w <= INT_MAX ->
  getIndicies_seq [] mem size w = Ok (markers_in mem 0 size ++ [size]).
Proof.
  intros Hsize Hlen Hw.
  destruct (scanned_pushes mem size w Hsize Hlen Hw)
    as (ranges & pushes & Hr & Hp & Hc).
  unfold getIndicies_seq. rewrite Hr. cbn [bind]. rewrite Hp. cbn [bind app].
  rewrite Hc. now rewrite (std_sort_ascending _ (boundaries_ascending mem size)).
Qed.

End ScannerFacts.

Section BoundaryList.
Import Scanner.

Lemma last_snoc (l : list Z) (x d : Z) : last (l ++ [x]) d = x.
Proof. apply last_last. Qed.

(** C2. For a file of [size] bytes and a worker count [w >= 1],
    [getIndicies] returns under every schedule of its threads, and the
    list it leaves after the sentinel and the sort is strictly ascending
    with [size] as its last element; for the empty file it is [[0]]. *)
Theorem getIndicies_ascending_to_size (mem : Mem) (size w : Z) :
  size = Z.of_nat (length mem) -> size < 2 ^ 64 -> 1 <= w <= INT_MAX ->
  (exists l, getIndicies [] mem size w (Ok l)) /\
  (forall r, getIndicies [] mem size w r ->
     exists l, r = Ok l /\ ascending l /\ last l 0 = size /\
               (size = 0 -> l = [0])).
Proof.
  intros Hsize Hlen Hw. split.
  - eexists. now apply getIndicies_returns.
  - intros r Hrun.
    rewrite (getIndicies_boundaries mem size w r Hsize Hlen Hw Hrun).
    eexists. split; [reflexivity|]. split; [apply boundaries_ascending|].
    split; [apply last_snoc|].
    intros ->. unfold markers_in. now rewrite offsets_empty by lia.
Qed.

Lemma getIndicies_ascending_to_size_witness :
  (exists l, getIndicies [] (bytes ">a>b") 4 3 (Ok l)) /\
  (forall r, getIndicies [] (bytes ">a>b") 4 3 r ->
     exists l, r = Ok l /\ ascending l /\ last l 0 = 4 /\ (4 = 0 -> l = [0])).
Proof.
  apply (getIndicies_ascending_to_size (bytes ">a>b") 4 3);
    [reflexivity | now vm_compute | now vm_compute].
Defined.

(** C5, as the specification has it, fails: for 10 bytes and 3 workers the
    ranges are [0,3), [3,6), [6,10), the first of 3 bytes and not of
    the ceiling of 10/3, which is 4. *)
Lemma chunk_ranges_not_ceiling :
  ~ (exists ranges,
       chunk_ranges 10 3 = Ok ranges /\ Claimed.partition 10 3 ranges).
Proof.
  intros (ranges & E & _ & _ & Hsz).
  vm_compute in E. inversion E; subst ranges.
  pose proof (Hsz 0%nat (0, 3) eq_refl eq_refl) as H.
  vm_compute in H. discriminate H.
Qed.

(** C5, amended. For a file of [size] bytes and a worker count [w >= 1],
    the boundary scanner launches [w] threads; the thread of chunk [k]
    scans from [k * (size / w)], with the quotient rounded down, up to
    [(k + 1) * (size / w)], and the last one up to [size]; put end to
    end the ranges are the offsets [0 .. size - 1], each once. *)
Theorem chunk_ranges_floor_partition (size w : Z) :
  0 <= size < 2 ^ 64 -> 1 <= w <= INT_MAX ->
  exists ranges,
    chunk_ranges size w = Ok ranges /\
    Z.of_nat (length ranges) = w /\
    (forall k, 0 <= k < w - 1 ->
       nth_error ranges (Z.to_nat k) =
       Some (k * (size / w), (k + 1) * (size / w))) /\
    nth_error ranges (Z.to_nat (w - 1)) = Some ((w - 1) * (size / w), size) /\
    concat (map range_offsets ranges) = offsets 0 size.
Proof.
  intros Hsize Hw. eexists. split; [now apply chunk_ranges_floor|].
  split; [rewrite length_map, length_seq; lia|].
  split; [|split].
  - intros k Hk.
    rewrite nth_error_map, nth_error_seq.
    destruct (Nat.ltb_spec (Z.to_nat k) (Z.to_nat w)); [|lia].
    cbn [option_map plus]. unfold floor_range.
    rewrite Z2Nat.id by lia.
    destruct (Z.eqb_spec k (w - 1)); [lia|reflexivity].
  - rewrite nth_error_map, nth_error_seq.
    destruct (Nat.ltb_spec (Z.to_nat (w - 1)) (Z.to_nat w)); [|lia].
    cbn [option_map plus]. unfold floor_range.
    rewrite Z2Nat.id by lia.
    now rewrite Z.eqb_refl.
  - apply floor_ranges_cover; lia.
Qed.

Lemma chunk_ranges_floor_partition_witness :
  exists ranges,
    chunk_ranges 10 3 = Ok ranges /\
    Z.of_nat (length ranges) = 3 /\
    (forall k, 0 <= k < 3 - 1 ->
       nth_error ranges (Z.to_nat k) = Some (k * (10 / 3), (k + 1) * (10 / 3))) /\
    nth_error ranges (Z.to_nat (3 - 1)) = Some ((3 - 1) * (10 / 3), 10) /\
    concat (map range_offsets ranges) = offsets 0 10.
Proof.
  apply (chunk_ranges_floor_partition 10 3); now vm_compute.
Defined.

End BoundaryList.

(** ** Record dispatcher *)

Section DispatcherFacts.
Import Dispatcher.

Lemma describe_loop_S (fuel : nat) (mem : Mem) (i size : Z) (name : list ascii) :
  describe_loop (S fuel) mem i size name =
  if i <? size then
    c <- mem_at mem i ;;
    if Ascii.eqb c newline then Ok (mkDescription name (Some i))
    else describe_loop fuel mem (wrap64 (i + 1)) size (name ++ [c])
  else Ok (mkDescription name None).
Proof. reflexivity. Qed.

Lemma describe_loop_line (mem : Mem) (size : Z) :
  size <= Z.of_nat (length mem) -> Z.of_nat (length mem) < 2 ^ 64 ->
  forall (n : nat) (i : Z) (name : list ascii),
    Z.of_nat n = size - i -> 0 <= i ->
    describe_loop (S n) mem i size name =
    Ok (mkDescription (name ++ Claimed.until_newline (slice mem i size))
                      (first_newline mem i size)).
Proof.
  intros Hsize Hlen. unfold first_newline, ending_from.
  induction n as [|n IH]; intros i name Hn Hi.
  - assert (i = size) by lia. subst i.
    rewrite describe_loop_S, Z.ltb_irrefl, slice_empty.
    cbn [Claimed.until_newline existsb]. now rewrite app_nil_r.
  - rewrite describe_loop_S. destruct (Z.ltb_spec i size); [|lia].
    destruct (mem_at_in_range mem i) as (c & Hnth & ->); [lia|].
    cbn [bind]. rewrite (slice_cons mem i size c) by (auto; lia).
    cbn [Claimed.until_newline existsb].
    destruct (Ascii.eqb c newline).
    + cbn [orb length]. rewrite app_nil_r. do 3 f_equal. lia.
    + rewrite (wrap64_small (i + 1)) by lia. rewrite IH by lia.
      cbn [orb length]. rewrite <- app_assoc. cbn [app].
      destruct (existsb _ _); do 3 f_equal. lia.
Qed.

Lemma getDescription_line (mem : Mem) (start size : Z) :
  0 <= start -> size <= Z.of_nat (length mem) ->
  Z.of_nat (length mem) < 2 ^ 64 ->
  getDescription mem start size =
  Ok (mkDescription (Claimed.until_newline (slice mem start size))
                    (first_newline mem start size)).
Proof.
  intros Hs Hsize Hlen. unfold getDescription.
  destruct (Z.le_gt_cases start size) as [Hle|Hgt].
  - now rewrite (describe_loop_line mem size Hsize Hlen) by lia.
  - replace (Z.to_nat (size - start)) with O by lia.
    rewrite describe_loop_S. destruct (Z.ltb_spec start size); [lia|].
    unfold first_newline, slice.
    now replace (Z.to_nat (size - start)) with O by lia.
Qed.

Lemma vec_at_in_range (v : list Z) (i : Z) :
  0 <= i < Z.of_nat (length v) -> vec_at v i = Ok (nth (Z.to_nat i) v 0).
Proof.
  intros H. unfold vec_at. destruct (Z.ltb_spec i 0); [lia|].
  destruct (nth_error v (Z.to_nat i)) as [x|] eqn:E.
  - now rewrite (nth_error_nth _ _ _ E).
  - apply nth_error_None in E. lia.
Qed.

Lemma last_index_nonempty (indicies : list Z) :
  1 <= Z.of_nat (length indicies) <= 2 ^ 63 ->
  last_index indicies = Z.of_nat (length indicies) - 1.
Proof.
  intros H. unfold last_index. apply wrap64_small.
  pose proof two63_lt_two64. lia.
Qed.

End DispatcherFacts.

(** *** The waves of [stageCollections]

    The mapped file has [size] bytes at least and the boundary list holds
    at least the sentinel. *)

Section Waves.
Import Dispatcher.

Variables (mem : Mem) (size : Z) (indicies : list Z).
Hypothesis size_mapped : size <= Z.of_nat (length mem).
Hypothesis mem_small : Z.of_nat (length mem) < 2 ^ 64.
Hypothesis list_nonempty : 1 <= Z.of_nat (length indicies) <= 2 ^ 63.
Hypothesis list_unsigned : Forall (fun b => 0 <= b) indicies.

Local Abbreviation n := (Z.of_nat (length indicies)).

Lemma launch_loop_S (fuel : nat) (w i t : Z) (threads : list Task) (used : Z) :
  launch_loop (S fuel) indicies mem size w i t threads used =
  if t <? w then
    let index := wrap64 (i + u64_of_int t) in
    if index <? last_index indicies then
      b <- vec_at indicies index ;;
      des <- getDescription mem b size ;;
      e <- vec_at indicies (wrap64 (index + 1)) ;;
      launch_loop fuel indicies mem size w i (t + 1)
        (threads ++ [mkTask (desc des) (ending des) e]) (used + 1)
    else launch_loop fuel indicies mem size w i (t + 1) threads used
  else Ok (threads, used).
Proof. reflexivity. Qed.

Lemma tasks_of_empty (lo hi : Z) :
  hi <= lo -> tasks_of indicies mem size lo hi = [].
Proof. intros H. unfold tasks_of. now rewrite offsets_empty. Qed.

Lemma tasks_of_cons (lo hi : Z) :
  lo < hi ->
  tasks_of indicies mem size lo hi =
  task_of indicies mem size lo :: tasks_of indicies mem size (lo + 1) hi.
Proof. intros H. unfold tasks_of. now rewrite offsets_cons. Qed.

Lemma tasks_of_app (a b c : Z) :
  a <= b -> b <= c ->
  tasks_of indicies mem size a b ++ tasks_of indicies mem size b c =
  tasks_of indicies mem size a c.
Proof.
  intros Hab Hbc. unfold tasks_of. now rewrite <- map_app, offsets_app.
Qed.

Lemma tasks_of_length (lo hi : Z) :
  length (tasks_of indicies mem size lo hi) = Z.to_nat (hi - lo).
Proof. unfold tasks_of, offsets. now rewrite !length_map, length_seq. Qed.

Lemma launch_loop_tasks (w i : Z) :
  1 <= w <= INT_MAX -> 0 <= i <= n - 1 ->
  forall (k : nat) (t : Z) (threads : list Task) (used : Z),
    Z.of_nat k = w - t -> 0 <= t ->
    launch_loop (S k) indicies mem size w i t threads used =
    Ok (threads ++ tasks_of indicies mem size (i + t) (Z.min (i + w) (n - 1)),
        used + Z.max 0 (Z.min (i + w) (n - 1) - (i + t))).
Proof.
  intros Hw Hi. pose proof INT_MAX_small. pose proof two63_lt_two64.
  induction k as [|k IH]; intros t threads used Hk Ht.
  - rewrite launch_loop_S. destruct (Z.ltb_spec t w); [lia|].
    rewrite tasks_of_empty by lia. rewrite app_nil_r. do 2 f_equal. lia.
  - rewrite launch_loop_S. destruct (Z.ltb_spec t w); [|lia].
    cbn zeta. rewrite (u64_of_int_small t) by lia.
    rewrite (wrap64_small (i + t)) by lia.
    rewrite last_index_nonempty by exact list_nonempty.
    destruct (Z.ltb_spec (i + t) (n - 1)) as [Hlt|Hge].
    + rewrite vec_at_in_range by lia. cbn [bind].
      rewrite getDescription_line; try assumption.
      2:{ rewrite Forall_forall in list_unsigned. apply list_unsigned.
          apply nth_In. lia. }
      cbn [bind]. rewrite (wrap64_small (i + t + 1)) by lia.
      rewrite vec_at_in_range by lia. cbn [bind desc ending].
      rewrite IH by lia.
      rewrite (tasks_of_cons (i + t)) by lia.
      rewrite <- app_assoc. cbn [app]. unfold task_of at 1.
      replace (i + (t + 1)) with (i + t + 1) by lia.
      do 2 f_equal. lia.
    + rewrite IH by lia. rewrite !tasks_of_empty by lia.
      do 2 f_equal. lia.
Qed.

Lemma launch_wave_tasks (w i : Z) :
  1 <= w <= INT_MAX -> 0 <= i <= n - 1 ->
  launch_wave indicies mem size w i =
  Ok (tasks_of indicies mem size i (Z.min (i + w) (n - 1)),
      Z.min (i + w) (n - 1) - i).
Proof.
  intros Hw Hi. unfold launch_wave.
  rewrite (launch_loop_tasks w i Hw Hi) by lia.
  cbn [app]. rewrite Z.add_0_r. do 2 f_equal. lia.
Qed.

Lemma stage_loop_S (fuel : nat) (w i : Z) :
  stage_loop (S fuel) indicies mem size w i =
  if i <? last_index indicies then
    wave <- launch_wave indicies mem size w i ;;
    rest <- stage_loop fuel indicies mem size w
              (wrap64 (i + u64_of_int (snd wave))) ;;
    Ok (fst wave :: rest)
  else Ok [].
Proof. reflexivity. Qed.

Lemma stage_loop_next (w i : Z) :
  1 <= w <= INT_MAX -> 0 <= i <= n - 1 ->
  wrap64 (i + u64_of_int (Z.min (i + w) (n - 1) - i)) = Z.min (i + w) (n - 1).
Proof.
  intros Hw Hi. pose proof INT_MAX_small. pose proof two63_lt_two64.
  rewrite (u64_of_int_small (Z.min (i + w) (n - 1) - i)) by lia.
  rewrite wrap64_small by lia. lia.
Qed.

Lemma stage_loop_sound (w : Z) :
  1 <= w <= INT_MAX ->
  forall (fuel : nat) (i : Z) (waves : list (list Task)),
    0 <= i <= n - 1 ->
    stage_loop fuel indicies mem size w i = Ok waves ->
    concat waves = tasks_of indicies mem size i (n - 1) /\
    Forall (fun wave => 1 <= Z.of_nat (length wave) <= w) waves.
Proof.
  intros Hw. induction fuel as [|fuel IH]; intros i waves Hi E;
    [discriminate|].
  rewrite stage_loop_S, last_index_nonempty in E by exact list_nonempty.
  destruct (Z.ltb_spec i (n - 1)) as [Hlt|Hge].
  - rewrite (launch_wave_tasks w i Hw Hi) in E. cbn [bind fst snd] in E.
    rewrite (stage_loop_next w i Hw Hi) in E.
    destruct (stage_loop fuel indicies mem size w (Z.min (i + w) (n - 1)))
      as [rest|f] eqn:Erest; [|discriminate].
    cbn [bind] in E. inversion E; subst waves.
    destruct (IH (Z.min (i + w) (n - 1)) rest ltac:(lia) Erest) as [Hc Hf].
    split.
    + cbn [concat]. rewrite Hc. apply tasks_of_app; lia.
    + constructor; [|exact Hf]. rewrite tasks_of_length. lia.
  - inversion E; subst waves. split; [|constructor].
    now rewrite tasks_of_empty by lia.
Qed.

Lemma stage_loop_returns (w : Z) :
  1 <= w <= INT_MAX ->
  forall (fuel : nat) (i : Z),
    0 <= i <= n - 1 -> n - 1 - i < Z.of_nat fuel ->
    exists waves, stage_loop fuel indicies mem size w i = Ok waves.
Proof.
  intros Hw. induction fuel as [|fuel IH]; intros i Hi Hfuel; [lia|].
  rewrite stage_loop_S, last_index_nonempty by exact list_nonempty.
  destruct (Z.ltb_spec i (n - 1)) as [Hlt|Hge]; [|now exists []].
  rewrite (launch_wave_tasks w i Hw Hi). cbn [bind fst snd].
  rewrite (stage_loop_next w i Hw Hi).
  destruct (IH (Z.min (i + w) (n - 1))) as [rest ->]; [lia|lia|].
  cbn [bind]. eauto.
Qed.

Lemma stage_loop_no_progress (w : Z) :
  w <= 0 -> 2 <= n ->
  forall fuel : nat, stage_loop fuel indicies mem size w 0 = Err OutOfFuel.
Proof.
  intros Hw Hn2. induction fuel as [|fuel IH]; [reflexivity|].
  rewrite stage_loop_S, last_index_nonempty by exact list_nonempty.
  destruct (Z.ltb_spec 0 (n - 1)); [|lia].
  unfold launch_wave. replace (Z.to_nat w) with O by lia.
  rewrite launch_loop_S. destruct (Z.ltb_spec 0 w); [lia|].
  cbn [bind fst snd].
  change (wrap64 (0 + u64_of_int 0)) with 0.
  now rewrite IH.
Qed.

End Waves.

(** *** Header lines *)

Lemma slice_nth (mem : Mem) (b hi : Z) (j : nat) :
  0 <= b -> (j < Z.to_nat (hi - b))%nat ->
  nth_error (slice mem b hi) j = nth_error mem (Z.to_nat (b + Z.of_nat j)).
Proof.
  intros Hb Hj. unfold slice. rewrite nth_error_firstn.
  destruct (Nat.ltb_spec j (Z.to_nat (hi - b))); [|lia].
  rewrite nth_error_skipn. f_equal. lia.
Qed.

Lemma slice_beyond (mem : Mem) (b hi : Z) (j : nat) :
  (Z.to_nat (hi - b) <= j)%nat -> nth_error (slice mem b hi) j = None.
Proof.
  intros Hj. unfold slice. rewrite nth_error_firstn.
  destruct (Nat.ltb_spec j (Z.to_nat (hi - b))); [lia|reflexivity].
Qed.

Lemma slice_firstn (mem : Mem) (b p hi : Z) :
  p <= hi -> firstn (Z.to_nat (p - b)) (slice mem b hi) = slice mem b p.
Proof.
  intros H. unfold slice. rewrite firstn_firstn. f_equal. lia.
Qed.

Lemma until_newline_found (l : list ascii) (j : nat) :
  nth_error l j = Some newline ->
  (forall q, (q < j)%nat -> nth_error l q <> Some newline) ->
  Claimed.until_newline l = firstn j l /\
  existsb (fun c => Ascii.eqb c newline) l = true /\
  length (Claimed.until_newline l) = j.
Proof.
  revert j. induction l as [|c l IH]; intros j Hj Hbefore.
  - destruct j; discriminate.
  - destruct j as [|j]; cbn [Claimed.until_newline existsb firstn nth_error] in *.
    + inversion Hj; subst c. rewrite Ascii.eqb_refl. now repeat split.
    + destruct (Ascii.eqb_spec c newline) as [->|Hc].
      * exfalso. apply (Hbefore 0%nat); [lia|reflexivity].
      * destruct (IH j Hj) as (E1 & E2 & E3).
        { intros q Hq. apply (Hbefore (S q)). lia. }
        cbn [orb length]. rewrite E1 at 1. now rewrite E2, E3.
Qed.

Lemma until_newline_missing (l : list ascii) :
  (forall q, nth_error l q <> Some newline) ->
  Claimed.until_newline l = l.
Proof.
  induction l as [|c l IH]; intros Hnone; [reflexivity|].
  cbn [Claimed.until_newline].
  destruct (Ascii.eqb_spec c newline) as [->|Hc].
  - exfalso. now apply (Hnone 0%nat).
  - f_equal. apply IH. intros q. apply (Hnone (S q)).
Qed.

Lemma header_line_found (mem : Mem) (b size p : Z) :
  0 <= b -> b <= p < size ->
  nth_error mem (Z.to_nat p) = Some newline ->
  (forall q, b <= q < p -> nth_error mem (Z.to_nat q) <> Some newline) ->
  Claimed.until_newline (slice mem b size) = slice mem b p /\
  first_newline mem b size = Some p.
Proof.
  intros Hb Hp Hnl Hbefore.
  destruct (until_newline_found (slice mem b size) (Z.to_nat (p - b)))
    as (E1 & E2 & E3).
  - rewrite slice_nth by lia. rewrite <- Hnl. f_equal. lia.
  - intros q Hq. rewrite slice_nth by lia. apply Hbefore. lia.
  - split.
    + rewrite E1. apply slice_firstn. lia.
    + unfold first_newline, ending_from. rewrite E2, E3. f_equal. lia.
Qed.

Lemma header_line_missing (mem : Mem) (b size : Z) :
  0 <= b ->
  (forall q, b <= q < size -> nth_error mem (Z.to_nat q) <> Some newline) ->
  Claimed.until_newline (slice mem b size) = slice mem b size.
Proof.
  intros Hb Hnone. apply until_newline_missing. intros q.
  destruct (Nat.lt_ge_cases q (Z.to_nat (size - b))) as [Hq|Hq].
  - rewrite slice_nth by lia. apply Hnone. lia.
  - rewrite slice_beyond by lia. discriminate.
Qed.

Lemma nth_error_tasks_of (indicies : list Z) (mem : Mem) (size hi k : Z) :
  0 <= k < hi ->
  nth_error (tasks_of indicies mem size 0 hi) (Z.to_nat k) =
  Some (task_of indicies mem size k).
Proof.
  intros Hk. unfold tasks_of, offsets.
  rewrite map_map, nth_error_map, nth_error_seq.
  destruct (Nat.ltb_spec (Z.to_nat k) (Z.to_nat (hi - 0))); [|lia].
  cbn [option_map plus]. do 2 f_equal. lia.
Qed.

Section Dispatch.
Import Dispatcher.

Lemma stageCollections_waves (mem : Mem) (size : Z) (indicies : list Z) :
  size <= Z.of_nat (length mem) -> Z.of_nat (length mem) < 2 ^ 64 ->
  1 <= Z.of_nat (length indicies) <= 2 ^ 63 ->
  Forall (fun b => 0 <= b) indicies ->
  forall w, 1 <= w <= INT_MAX ->
    forall fuel, (length indicies <= fuel)%nat ->
      exists waves,
        stageCollections fuel indicies mem size w = Ok waves /\
        concat waves =
          tasks_of indicies mem size 0 (Z.of_nat (length indicies) - 1) /\
        Forall (fun wave => 1 <= Z.of_nat (length wave) <= w) waves.
Proof.
  intros Hsize Hlen Hn Hpos w Hw fuel Hfuel. unfold stageCollections.
  destruct (stage_loop_returns mem size indicies Hsize Hlen Hn Hpos w Hw fuel 0)
    as [waves E]; [lia|lia|].
  exists waves. split; [exact E|].
  apply (stage_loop_sound mem size indicies Hsize Hlen Hn Hpos w Hw fuel 0);
    [lia|exact E].
Qed.

(** C10. On a boundary list of [n >= 1] entries: with a worker count
    [w >= 1] the wave loop of [stageCollections] returns as soon as it is
    given [n] steps, every wave launches at least one and at most [w]
    threads, and the threads launched are, in order, those of the records
    [0], ..., [n - 2], each once; with a worker count that is not positive
    and at least one record, every wave launches nothing, the index stays
    at [0] and the loop does not return, whatever the number of steps. *)
Theorem stageCollections_each_record_once (mem : Mem) (size : Z)
  (indicies : list Z) :
  size <= Z.of_nat (length mem) -> Z.of_nat (length mem) < 2 ^ 64 ->
  1 <= Z.of_nat (length indicies) <= 2 ^ 63 ->
  Forall (fun b => 0 <= b) indicies ->
  (forall w, 1 <= w <= INT_MAX ->
     forall fuel, (length indicies <= fuel)%nat ->
       exists waves,
         stageCollections fuel indicies mem size w = Ok waves /\
         concat waves =
           map (task_of indicies mem size)
               (offsets 0 (Z.of_nat (length indicies) - 1)) /\
         Forall (fun wave => 1 <= Z.of_nat (length wave) <= w) waves) /\
  (forall w, w <= 0 -> 2 <= Z.of_nat (length indicies) ->
     forall fuel, stageCollections fuel indicies mem size w = Err OutOfFuel).
Proof.
  intros Hsize Hlen Hn Hpos. split.
  - intros w Hw fuel Hfuel.
    apply (stageCollections_waves mem size indicies); assumption.
  - intros w Hw Hn2 fuel. now apply stage_loop_no_progress.
Qed.

Lemma stageCollections_each_record_once_witness :
  (exists waves,
     stageCollections 3 [0; 2; 7] (bytes ">a>b" ++ nl ++ bytes "GG") 7 2 = Ok waves /\
     concat waves =
       map (task_of [0; 2; 7] (bytes ">a>b" ++ nl ++ bytes "GG") 7) (offsets 0 2) /\
     Forall (fun wave => 1 <= Z.of_nat (length wave) <= 2) waves) /\
  stageCollections 9 [0; 2; 7] (bytes ">a>b" ++ nl ++ bytes "GG") 7 0
  = Err OutOfFuel.
Proof.
  destruct (stageCollections_each_record_once
              (bytes ">a>b" ++ nl ++ bytes "GG") 7 [0; 2; 7]) as [Hpos Hzero].
  - now vm_compute.
  - now vm_compute.
  - split; now vm_compute.
  - repeat constructor; lia.
  - split.
    + apply (Hpos 2); [split; now vm_compute | (cbn [length]; lia)].
    + apply (Hzero 0); [lia | now vm_compute].
Defined.

(** C3, as the specification has it, fails: in the file [>a>b\nGG] the
    boundaries are 0, 2 and 7; the header of record 0 is scanned past the
    boundary 2 up to the line break at 4, so that the thread gets the
    header [>a>b] and the range from 4 to 2, where the specification has
    [>a] and the range from 2 to 2. *)
Lemma header_scan_passes_next_boundary :
  Scanner.getIndicies_seq [] (bytes ">a>b" ++ nl ++ bytes "GG") 7 1
  = Ok [0; 2; 7] /\
  exists waves,
    stageCollections 3 [0; 2; 7] (bytes ">a>b" ++ nl ++ bytes "GG") 7 1 = Ok waves /\
    nth_error (concat waves) 0 = Some (mkTask (bytes ">a>b") (Some 4) 2) /\
    Claimed.record (bytes ">a>b" ++ nl ++ bytes "GG") 0 2
    = mkTask (bytes ">a") (Some 2) 2 /\
    nth_error (concat waves) 0
    <> Some (Claimed.record (bytes ">a>b" ++ nl ++ bytes "GG") 0 2).
Proof.
  split; [reflexivity|].
  eexists. split; [reflexivity|].
  split; [reflexivity|]. split; [reflexivity|]. discriminate.
Qed.

(** C3, amended. For every record [k] of a boundary list, the thread that
    [stageCollections] launches gets as header the bytes from
    [indicies[k]] up to, but not including, the first line break at or
    after it, the scan being bounded by the end of the file and not by
    [indicies[k + 1]]; when there is such a line break, at [p], the range
    handed to the tally starts at [p], and it ends at [indicies[k + 1]]
    in every case. *)
Theorem stageCollections_header_line (mem : Mem) (size : Z)
  (indicies : list Z) (w : Z) (fuel : nat) (k : Z) :
  size <= Z.of_nat (length mem) -> Z.of_nat (length mem) < 2 ^ 64 ->
  1 <= Z.of_nat (length indicies) <= 2 ^ 63 ->
  Forall (fun b => 0 <= b) indicies ->
  1 <= w <= INT_MAX -> (length indicies <= fuel)%nat ->
  0 <= k < Z.of_nat (length indicies) - 1 ->
  exists waves task,
    stageCollections fuel indicies mem size w = Ok waves /\
    nth_error (concat waves) (Z.to_nat k) = Some task /\
    t_end task = nth (Z.to_nat (k + 1)) indicies 0 /\
    (forall p,
       nth (Z.to_nat k) indicies 0 <= p < size ->
       nth_error mem (Z.to_nat p) = Some newline ->
       (forall q, nth (Z.to_nat k) indicies 0 <= q < p ->
                  nth_error mem (Z.to_nat q) <> Some newline) ->
       t_desc task = slice mem (nth (Z.to_nat k) indicies 0) p /\
       t_start task = Some p) /\
    ((forall q, nth (Z.to_nat k) indicies 0 <= q < size ->
                nth_error mem (Z.to_nat q) <> Some newline) ->
     t_desc task = slice mem (nth (Z.to_nat k) indicies 0) size).
Proof.
  intros Hsize Hlen Hn Hpos Hw Hfuel Hk.
  destruct (stageCollections_waves mem size indicies Hsize Hlen Hn Hpos w Hw
              fuel Hfuel) as (waves & E & Hc & _).
  exists waves, (task_of indicies mem size k).
  assert (Hb : 0 <= nth (Z.to_nat k) indicies 0).
  { rewrite Forall_forall in Hpos. apply Hpos, nth_In. lia. }
  split; [exact E|]. split.
  { rewrite Hc. apply nth_error_tasks_of. lia. }
  split; [reflexivity|]. split.
  - intros p Hp Hnl Hbefore. unfold task_of. cbn [t_desc t_start].
    apply header_line_found; auto.
  - intros Hnone. unfold task_of. cbn [t_desc].
    apply header_line_missing; auto.
Qed.

Lemma stageCollections_header_line_witness :
  exists waves task,
    stageCollections 3 [0; 2; 7] (bytes ">a>b" ++ nl ++ bytes "GG") 7 1 = Ok waves /\
    nth_error (concat waves) 1 = Some task /\
    t_end task = 7 /\ t_desc task = bytes ">b" /\ t_start task = Some 4.
Proof.
  destruct (stageCollections_header_line
              (bytes ">a>b" ++ nl ++ bytes "GG") 7 [0; 2; 7] 1 3 1)
    as (waves & task & E & Hnth & Hend & Hline & _).
  - now vm_compute.
  - now vm_compute.
  - split; now vm_compute.
  - repeat constructor; lia.
  - split; now vm_compute.
  - cbn [length]. lia.
  - cbn [length]. lia.
  - exists waves, task. split; [exact E|]. split; [exact Hnth|].
    split; [exact Hend|].
    change (nth (Z.to_nat 1) [0; 2; 7] 0) with 2 in Hline.
    destruct (Hline 4) as [Hd Hs].
    + lia.
    + reflexivity.
    + intros q Hq.
      assert (q = 2 \/ q = 3) as [-> | ->] by lia; discriminate.
    + split; [exact Hd|exact Hs].
Defined.

End Dispatch.

(** ** The two phases together *)

Section Pipeline.
Import Scanner Dispatcher.

Lemma written_permutation {X : Type} (waves : list (list X)) (out : list X) :
  written waves out -> Permutation (concat waves) out.
Proof.
  induction 1 as [|wave waves blocks out Hp _ IH]; [reflexivity|].
  cbn [concat]. now apply Permutation_app.
Qed.

Lemma written_in_launch_order {X : Type} (waves : list (list X)) :
  written waves (concat waves).
Proof.
  induction waves as [|wave waves IH]; [constructor|].
  cbn [concat]. now constructor.
Qed.

Lemma markers_in_length (mem : Mem) (lo hi : Z) :
  (length (markers_in mem lo hi) <= Z.to_nat (hi - lo))%nat.
Proof.
  unfold markers_in. etransitivity; [apply filter_length_le|].
  unfold offsets. now rewrite length_map, length_seq.
Qed.

Lemma boundaries_length (mem : Mem) (size : Z) :
  0 <= size < 2 ^ 63 ->
  1 <= Z.of_nat (length (markers_in mem 0 size ++ [size])) <= 2 ^ 63.
Proof.
  intros H. rewrite length_app. cbn [length].
  pose proof (markers_in_length mem 0 size). lia.
Qed.

Lemma boundaries_unsigned (mem : Mem) (size : Z) :
  0 <= size -> Forall (fun b => 0 <= b) (markers_in mem 0 size ++ [size]).
Proof.
  intros H. apply Forall_app. split; [|now constructor].
  apply Forall_forall. intros p Hp. apply in_markers_in in Hp. lia.
Qed.

(** The results of the records of a file, in file order. *)
Lemma pipeline_records (mem : Mem) (size w : Z) (out : list (result Tally.Stats)) :
  size = Z.of_nat (length mem) -> size < 2 ^ 63 -> 1 <= w <= INT_MAX ->
  pipeline mem size w out ->
  Permutation
    (map (run_task mem)
       (tasks_of (markers_in mem 0 size ++ [size]) mem size 0
          (Z.of_nat (length (markers_in mem 0 size ++ [size])) - 1)))
    out.
Proof.
  intros Hsize Hlen Hw (indicies & fuel & waves & Hscan & Hstage & Hout).
  pose proof two63_lt_two64.
  apply getIndicies_boundaries in Hscan; [|lia|lia|exact Hw].
  inversion Hscan; subst indicies.
  unfold stageCollections in Hstage.
  apply stage_loop_sound in Hstage; try lia.
  - destruct Hstage as [Hc _]. rewrite <- Hc, concat_map.
    now apply written_permutation.
  - apply boundaries_length. lia.
  - apply boundaries_unsigned. lia.
  - pose proof (boundaries_length mem size). lia.
Qed.

Lemma pipeline_returns (mem : Mem) (size w : Z) :
  size = Z.of_nat (length mem) -> size < 2 ^ 63 -> 1 <= w <= INT_MAX ->
  exists out, pipeline mem size w out.
Proof.
  intros Hsize Hlen Hw. pose proof two63_lt_two64.
  destruct (stageCollections_waves mem size (markers_in mem 0 size ++ [size]))
    with (w := w) (fuel := length (markers_in mem 0 size ++ [size]))
    as (waves & E & _); try lia.
  - apply boundaries_length. lia.
  - apply boundaries_unsigned. lia.
  - exists (concat (map (map (run_task mem)) waves)).
    exists (markers_in mem 0 size ++ [size]),
      (length (markers_in mem 0 size ++ [size])), waves.
    split; [apply getIndicies_returns; lia|].
    split; [exact E|]. apply written_in_launch_order.
Qed.

Lemma no_marker_no_offset (mem : Mem) (lo hi : Z) :
  (forall c, In c mem -> c <> marker) -> markers_in mem lo hi = [].
Proof.
  intros Hnone. destruct (markers_in mem lo hi) as [|p l] eqn:E; [reflexivity|].
  assert (Hp : In p (markers_in mem lo hi)) by (rewrite E; now left).
  apply in_markers_in in Hp. destruct Hp as [_ Hp]. unfold marker_at in Hp.
  destruct (nth_error mem (Z.to_nat p)) as [c|] eqn:Ec; [|discriminate].
  apply nth_error_In in Ec. apply Ascii.eqb_eq in Hp. now apply Hnone in Ec.
Qed.

Lemma stageCollections_sentinel_only (fuel : nat) (mem : Mem) (size w : Z) :
  fuel <> 0%nat -> stageCollections fuel [size] mem size w = Ok [].
Proof. destruct fuel; [contradiction|reflexivity]. Qed.

(** C6. For a mapped file without any header marker, the empty file
    included, and a worker count [w >= 1]: the boundary list holds the
    sentinel only, so fewer than two entries; [stageCollections] returns
    at its first test of the loop condition without launching a thread;
    and the two phases return having written nothing. *)
Theorem no_marker_no_record (mem : Mem) (size w : Z) :
  size = Z.of_nat (length mem) -> size < 2 ^ 64 -> 1 <= w <= INT_MAX ->
  (forall c, In c mem -> c <> marker) ->
  (forall r, getIndicies [] mem size w r ->
     exists l, r = Ok l /\ (length l < 2)%nat /\
               forall fuel, fuel <> 0%nat ->
                 stageCollections fuel l mem size w = Ok []) /\
  pipeline mem size w [] /\
  (forall out, pipeline mem size w out -> out = []).
Proof.
  intros Hsize Hlen Hw Hnone.
  assert (Hscan : forall r, getIndicies [] mem size w r -> r = Ok [size]).
  { intros r Hr. apply getIndicies_boundaries in Hr; try assumption.
    now rewrite (no_marker_no_offset mem 0 size Hnone) in Hr. }
  split; [|split].
  - intros r Hr. exists [size]. split; [now apply Hscan|].
    split; [cbn [length]; lia|].
    intros fuel Hfuel. now apply stageCollections_sentinel_only.
  - exists [size], 1%nat, []. split.
    + pose proof (getIndicies_returns mem size w Hsize Hlen Hw) as Hr.
      now rewrite (no_marker_no_offset mem 0 size Hnone) in Hr.
    + split; [reflexivity|constructor].
  - intros out (indicies & fuel & waves & Hr & Hstage & Hout).
    apply Hscan in Hr. inversion Hr; subst indicies.
    destruct fuel as [|fuel]; [discriminate|].
    rewrite stageCollections_sentinel_only in Hstage by discriminate.
    inversion Hstage; subst waves. now inversion Hout.
Qed.

Lemma no_marker_no_record_witness :
  (forall r, getIndicies [] (bytes "GATTACA") 7 2 r ->
     exists l, r = Ok l /\ (length l < 2)%nat /\
               forall fuel, fuel <> 0%nat ->
                 stageCollections fuel l (bytes "GATTACA") 7 2 = Ok []) /\
  pipeline (bytes "GATTACA") 7 2 [] /\
  (forall out, pipeline (bytes "GATTACA") 7 2 out -> out = []).
Proof.
  apply (no_marker_no_record (bytes "GATTACA") 7 2);
    [reflexivity | now vm_compute | split; now vm_compute |].
  intros c Hc. cbn in Hc.
  repeat (destruct Hc as [<- | Hc]; [discriminate|]). contradiction.
Defined.

End Pipeline.

(** ** Result sink *)

Section SinkFacts.
Import Sink.

Variables (tables : list (list ascii)) (out0 : list ascii).

Lemma set_pc_same (k : nat) (p : pc) (f : nat -> pc) : set_pc k p f k = p.
Proof. unfold set_pc. now rewrite Nat.eqb_refl. Qed.

Lemma set_pc_other (k j : nat) (p : pc) (f : nat -> pc) :
  j <> k -> set_pc k p f j = f j.
Proof.
  intros H. unfold set_pc. destruct (Nat.eqb_spec j k); [contradiction|reflexivity].
Qed.

Lemma consistent_init : consistent tables out0 (init out0) [] [].
Proof.
  constructor; cbn.
  - constructor.
  - intros k. split; [contradiction|discriminate].
  - now rewrite app_nil_r.
  - split; [reflexivity|discriminate].
  - intros k H. now contradiction H.
Qed.

Lemma consistent_lock (s : State) (order : list nat) (partial : list ascii)
  (k : nat) (tbl : list ascii) :
  consistent tables out0 s order partial ->
  nth_error tables k = Some tbl -> pcs s k = Formatted -> mute s = None ->
  consistent tables out0
    (mkState (Some k) (ofile s) (set_pc k (Locked tbl) (pcs s))) order [].
Proof.
  intros [Hnd Hdone Hout Hlock Hstart] Htbl Hpc Hmute.
  rewrite Hmute in Hlock. destruct Hlock as [-> Hfree].
  constructor; cbn.
  - exact Hnd.
  - intros j. destruct (Nat.eq_dec j k) as [->|Hj].
    + rewrite set_pc_same, Hdone, Hpc. split; discriminate.
    + now rewrite set_pc_other.
  - exact Hout.
  - exists tbl. rewrite set_pc_same. split; [reflexivity|]. split.
    + unfold table_of. now rewrite (nth_error_nth _ _ _ Htbl).
    + intros j rest' Hj. destruct (Nat.eq_dec j k) as [->|Hne]; [reflexivity|].
      rewrite set_pc_other in Hj by exact Hne. now apply Hfree in Hj.
  - intros j Hj. destruct (Nat.eq_dec j k) as [->|Hne].
    + apply nth_error_Some. now rewrite Htbl.
    + rewrite set_pc_other in Hj by exact Hne. now apply Hstart.
Qed.

Lemma locked_is_owner (s : State) (order : list nat) (partial : list ascii)
  (k : nat) (rest : list ascii) :
  consistent tables out0 s order partial ->
  pcs s k = Locked rest ->
  mute s = Some k /\ table_of tables k = partial ++ rest /\
  forall j rest', pcs s j = Locked rest' -> j = k.
Proof.
  intros [_ _ _ Hlock _] Hpc.
  destruct (mute s) as [h|].
  - destruct Hlock as (rest0 & Hh & Htbl & Huniq).
    pose proof (Huniq k rest Hpc) as ->.
    rewrite Hpc in Hh. inversion Hh; subst rest0. now repeat split.
  - destruct Hlock as [_ Hfree]. now apply Hfree in Hpc.
Qed.

Lemma consistent_write (s : State) (order : list nat) (partial : list ascii)
  (k : nat) (c : ascii) (rest : list ascii) :
  consistent tables out0 s order partial ->
  pcs s k = Locked (c :: rest) ->
  consistent tables out0
    (mkState (mute s) (ofile s ++ [c]) (set_pc k (Locked rest) (pcs s)))
    order (partial ++ [c]).
Proof.
  intros Hc Hpc.
  destruct (locked_is_owner s order partial k _ Hc Hpc) as (Hmute & Htbl & Huniq).
  destruct Hc as [Hnd Hdone Hout _ Hstart].
  constructor; cbn.
  - exact Hnd.
  - intros j. destruct (Nat.eq_dec j k) as [->|Hj].
    + rewrite set_pc_same, Hdone, Hpc. split; discriminate.
    + now rewrite set_pc_other.
  - rewrite Hout. now rewrite <- !app_assoc.
  - rewrite Hmute. exists rest. rewrite set_pc_same. split; [reflexivity|].
    split; [now rewrite <- app_assoc|].
    intros j rest' Hj. destruct (Nat.eq_dec j k) as [->|Hne]; [reflexivity|].
    rewrite set_pc_other in Hj by exact Hne. now apply Huniq in Hj.
  - intros j Hj. destruct (Nat.eq_dec j k) as [->|Hne].
    + apply Hstart. rewrite Hpc. discriminate.
    + rewrite set_pc_other in Hj by exact Hne. now apply Hstart.
Qed.

Lemma consistent_unlock (s : State) (order : list nat) (partial : list ascii)
  (k : nat) :
  consistent tables out0 s order partial ->
  pcs s k = Locked [] ->
  consistent tables out0
    (mkState None (ofile s) (set_pc k Released (pcs s))) (order ++ [k]) [].
Proof.
  intros Hc Hpc.
  destruct (locked_is_owner s order partial k _ Hc Hpc) as (Hmute & Htbl & Huniq).
  destruct Hc as [Hnd Hdone Hout _ Hstart].
  rewrite app_nil_r in Htbl.
  assert (Hk : ~ In k order).
  { rewrite Hdone, Hpc. discriminate. }
  constructor; cbn.
  - apply NoDup_app; [exact Hnd | repeat constructor; now intros [] |].
    intros j Hj [<-|[]]. contradiction.
  - intros j. rewrite in_app_iff. destruct (Nat.eq_dec j k) as [->|Hj].
    + rewrite set_pc_same. split; [reflexivity|]. intros _. right. now left.
    + rewrite set_pc_other by exact Hj. rewrite <- Hdone. split; [|tauto].
      intros [H|[H|[]]]; [exact H|]. now contradiction Hj.
  - rewrite Hout, map_app, concat_app. cbn [map concat].
    now rewrite Htbl, !app_nil_r.
  - split; [reflexivity|]. intros j rest Hj.
    destruct (Nat.eq_dec j k) as [->|Hne].
    + rewrite set_pc_same in Hj. discriminate.
    + rewrite set_pc_other in Hj by exact Hne. now apply Huniq in Hj.
  - intros j Hj. destruct (Nat.eq_dec j k) as [->|Hne].
    + apply Hstart. rewrite Hpc. discriminate.
    + rewrite set_pc_other in Hj by exact Hne. now apply Hstart.
Qed.

Lemma reachable_consistent (s : State) :
  reachable tables out0 s ->
  exists order partial, consistent tables out0 s order partial.
Proof.
  induction 1 as [|s s' _ (order & partial & Hc) Hstep].
  - exists [], []. apply consistent_init.
  - destruct Hstep as [s k tbl Htbl Hpc Hmute|s k c rest Hpc|s k Hpc].
    + exists order, []. eapply consistent_lock; eauto.
    + exists order, (partial ++ [c]). now apply consistent_write.
    + exists (order ++ [k]), []. eapply consistent_unlock; eauto.
Qed.

Lemma all_released (s : State) (order : list nat) (partial : list ascii) :
  consistent tables out0 s order partial ->
  (forall k, (k < length tables)%nat -> pcs s k = Released) ->
  partial = [] /\ Permutation order (seq 0 (length tables)).
Proof.
  intros [Hnd Hdone _ Hlock Hstart] Hall. split.
  - destruct (mute s) as [h|]; [|now destruct Hlock].
    destruct Hlock as (rest & Hh & _).
    assert (Hlt : (h < length tables)%nat).
    { apply Hstart. rewrite Hh. discriminate. }
    rewrite (Hall h Hlt) in Hh. discriminate.
  - apply NoDup_Permutation; [exact Hnd|apply seq_NoDup|].
    intros k. rewrite Hdone, in_seq. split.
    + intros Hk. split; [lia|]. apply Hstart. rewrite Hk. discriminate.
    + intros [_ Hk]. now apply Hall.
Qed.

End SinkFacts.

(** ** Command line *)

Section CliFacts.
Import Cli.

(** C7, as the specification has it, fails: when the file cannot be
    opened, so that [mmap] fails, [main] prints "mmap failed" only; the
    usage text is not printed. *)
Lemma mmap_failure_prints_no_usage :
  stderr (main no_file 1 ["bio-util"; "missing.fa"; "2"]%string) = [MsgMmapFailed] /\
  ~ In MsgUsage (stderr (main no_file 1 ["bio-util"; "missing.fa"; "2"]%string)).
Proof.
  split; [reflexivity|]. intros [H|[]]. discriminate.
Qed.

(** C7, amended. With an argument count other than 3, [main] prints the
    usage text to standard error and exits with status 0 without
    processing; with a worker count that [std::stoi] cannot convert, it
    prints the usage text, "Something went wrong..." and the text of the
    exception to standard error and exits with status 0; when [mmap] fails,
    which is also what a failed [open] leads to since its result is not
    checked, it prints "mmap failed" only, no usage text, and the process
    exits with a non-zero status. *)
Theorem main_error_paths (os : OS) (fuel : nat) :
  (forall argv, length argv <> 3%nat ->
     main os fuel argv = mkEffects [MsgUsage] [] [] (Exits 0)) /\
  (forall prog file arg e, stoi arg = inr e ->
     main os fuel [prog; file; arg]
     = mkEffects [MsgUsage; MsgWentWrong; MsgWhat e] [] [] (Exits 0)) /\
  (forall prog file arg n, stoi arg = inl n ->
     os_mmap os (os_st_size os (os_open os file)) (os_open os file) = None ->
     main os fuel [prog; file; arg] = mkEffects [MsgMmapFailed] [] [] (Exits (-1)) /\
     wait_status (-1) <> 0).
Proof.
  split; [|split].
  - intros argv Hargc.
    destruct argv as [|a0 [|a1 [|a2 [|a3 argv]]]]; try reflexivity.
    now contradiction Hargc.
  - intros prog file arg e He. unfold main. now rewrite He.
  - intros prog file arg n Hn Hmap. split; [|discriminate].
    unfold main. rewrite Hn. unfold readFile. now rewrite Hmap.
Qed.

Lemma main_error_paths_witness :
  main no_file 1 ["bio-util"]%string = mkEffects [MsgUsage] [] [] (Exits 0) /\
  main no_file 1 ["bio-util"; "x.fa"; "four"]%string
  = mkEffects [MsgUsage; MsgWentWrong; MsgWhat invalid_argument] [] [] (Exits 0) /\
  main no_file 1 ["bio-util"; "x.fa"; "4"]%string
  = mkEffects [MsgMmapFailed] [] [] (Exits (-1)).
Proof.
  destruct (main_error_paths no_file 1) as (Hargc & Hstoi & Hmap).
  split; [|split].
  - apply Hargc. cbn [length]. discriminate.
  - apply Hstoi. reflexivity.
  - apply (Hmap "bio-util"%string "x.fa"%string "4"%string 4); reflexivity.
Defined.

(** C9, as the specification has it, fails: the division is also defined
    for a worker count below 1. The count [-1] parses, is converted to
    [uint64_t] for the division, which is then by [2^64 - 1], and no thread
    is launched. *)
Lemma negative_worker_count_divides :
  stoi "-1" = inl (-1) /\
  Scanner.chunk_ranges 10 (-1) = Ok [] /\
  ~ ((exists ranges, Scanner.chunk_ranges 10 (-1) = Ok ranges) -> 1 <= -1).
Proof.
  split; [reflexivity|]. split; [reflexivity|].
  intros H. assert (Hle : 1 <= -1) by (apply H; now exists []). lia.
Qed.

(** C9, amended. [getIndicies] divides [size] by the worker count without
    any test. The division is defined exactly when the worker count is not
    0: a count [w >= 1] divides by [w], a negative count divides by its
    conversion to [uint64_t], which is not 0; [chunkSize] is that quotient.
    With the worker count 0 it is a division by zero, for every file and
    under every schedule; and [main] gets there, since between [std::stoi]
    and the division nothing looks at the value: a worker count that
    parses to 0, on a file that can be mapped, ends in that division. *)
Theorem chunk_size_division_nonzero :
  (forall size w, INT_MIN <= w <= INT_MAX -> w <> 0 ->
     u64_of_int w <> 0 /\
     Scanner.chunk_ranges size w
     = Ok (map (fun chunk =>
                  Scanner.chunk_range size (size / u64_of_int w) w
                    (Z.of_nat chunk))
               (seq 0 (Z.to_nat w)))) /\
  (forall w, 1 <= w <= INT_MAX -> u64_of_int w = w) /\
  (forall size w, INT_MIN <= w <= INT_MAX ->
     Scanner.chunk_ranges size w = Err DivideByZero <-> w = 0) /\
  (forall indicies mem size r,
     Scanner.getIndicies indicies mem size 0 r <-> r = Err DivideByZero) /\
  (forall os fuel prog file arg mem,
     stoi arg = inl 0 ->
     os_mmap os (os_st_size os (os_open os file)) (os_open os file) = Some mem ->
     flow (main os fuel [prog; file; arg]) = Faults DivideByZero).
Proof.
  assert (Hdiv : forall size w, INT_MIN <= w <= INT_MAX -> w <> 0 ->
            u64_of_int w <> 0 /\
            Scanner.chunk_ranges size w
            = Ok (map (fun chunk =>
                         Scanner.chunk_range size (size / u64_of_int w) w
                           (Z.of_nat chunk))
                      (seq 0 (Z.to_nat w)))).
  { intros size w Hw Hne. unfold Scanner.chunk_ranges.
    pose proof (u64_of_int_zero w Hw) as Hz.
    destruct (Z.eqb_spec w 0); [contradiction|].
    destruct (Z.eqb_spec (u64_of_int w) 0); [discriminate|].
    now split. }
  split; [exact Hdiv|]. split; [|split; [|split]].
  - intros w Hw. apply u64_of_int_small. lia.
  - intros size w Hw. split.
    + intros E. destruct (Z.eq_dec w 0) as [H0|Hne]; [exact H0|].
      destruct (Hdiv size w Hw Hne) as [_ Hok]. congruence.
    + now intros ->.
  - intros indicies mem size r. split.
    + intros Hrun.
      inversion Hrun as [f E|ranges f E _|ranges pushes shared E _ _];
        subst; now inversion E.
    + intros ->. now constructor.
  - intros os fuel prog file arg mem Hstoi Hmap.
    unfold main. rewrite Hstoi. unfold readFile. rewrite Hmap.
    reflexivity.
Qed.

Lemma chunk_size_division_nonzero_witness :
  Scanner.chunk_ranges 10 3 = Ok [(0, 3); (3, 6); (6, 10)] /\
  u64_of_int (-2) <> 0 /\
  Scanner.chunk_ranges 10 (-2) = Ok [] /\
  u64_of_int 3 = 3 /\
  (Scanner.chunk_ranges 10 0 = Err DivideByZero <-> 0 = 0) /\
  flow (main (one_file (bytes ">a")) 1 ["bio-util"; "a.fa"; "0"]%string)
  = Faults DivideByZero.
Proof.
  destruct chunk_size_division_nonzero as (Hdiv & Hpos & Hzero & _ & Hmain).
  destruct (Hdiv 10 3) as [_ H3]; [split; now vm_compute | lia |].
  destruct (Hdiv 10 (-2)) as [Hne Hneg]; [split; now vm_compute | lia |].
  split; [rewrite H3; reflexivity|]. split; [exact Hne|].
  split; [rewrite Hneg; reflexivity|].
  split; [apply Hpos; split; now vm_compute|].
  split; [apply Hzero; split; now vm_compute|].
  apply (Hmain _ _ _ _ _ (bytes ">a")); reflexivity.
Defined.

End CliFacts.

(** ** Scenarios *)

Section Scenarios.
Import Tally.

(** Two records, one worker: each record in a wave of its own. *)
Example scenario_two_records :
  let mem := bytes ">seq1" ++ nl ++ bytes "GGCCAATT" ++ nl
             ++ bytes ">seq2" ++ nl ++ bytes "NNNN" ++ nl in
  map (map (Dispatcher.run_task mem))
      (Cli.launched (Cli.main (one_file mem) 3 ["bio-util"; "f.fa"; "1"]%string))
  = [[Ok (mkStats (bytes ">seq1") (mkCounts 2 2 2 2 0 8))];
     [Ok (mkStats (bytes ">seq2") (mkCounts 0 0 0 0 4 4))]].
Proof. now vm_compute. Qed.

(** The block [printStats] writes for the second record. *)
Example scenario_block :
  Sink.table (mkStats (bytes ">seq2") (mkCounts 0 0 0 0 4 4))
  = nl ++ bytes ">seq2" ++ nl ++ nl
    ++ bytes "G: 0" ++ nl ++ bytes "C: 0" ++ nl ++ bytes "A: 0" ++ nl
    ++ bytes "T: 0" ++ nl ++ bytes "N: 4" ++ nl
    ++ bytes "-----------------------------------" ++ nl
    ++ bytes "Total: 4" ++ nl.
Proof. reflexivity. Qed.

(** A body of lowercase letters and line breaks only: all counters 0. *)
Example scenario_lowercase_body :
  collectCounts (bytes ">s") 2 9 (bytes ">s" ++ nl ++ bytes "acgt" ++ nl ++ bytes "n")
  = Ok (mkStats (bytes ">s") zero).
Proof. reflexivity. Qed.

(** A last header without line break: the start of its range is never
    assigned. *)
Example scenario_unterminated_header :
  Dispatcher.getDescription (bytes ">abc") 0 4
  = Ok (Dispatcher.mkDescription (bytes ">abc") None).
Proof. reflexivity. Qed.

End Scenarios.

(** * Further properties of the code *)

(** ** [collectCounts] beyond its contract *)

Section TallyRanges.
Import Tally.

Lemma tally_nil : tally [] = zero.
Proof. reflexivity. Qed.

Lemma occ_app (x : ascii) (l1 l2 : list ascii) :
  occ x (l1 ++ l2) = occ x l1 + occ x l2.
Proof. unfold occ. rewrite count_occ_app. lia. Qed.

Lemma tally_app (l1 l2 : list ascii) :
  tally (l1 ++ l2) = add_counts (tally l1) (tally l2).
Proof.
  unfold tally, add_counts. cbn [G C A T N total].
  rewrite !occ_app. f_equal. lia.
Qed.

Lemma firstn_add_skipn {X : Type} (n m : nat) (l : list X) :
  firstn (n + m) l = firstn n l ++ firstn m (skipn n l).
Proof.
  revert l. induction n as [|n IH]; intros l; [reflexivity|].
  destruct l as [|x l]; cbn [plus firstn skipn app].
  - now rewrite firstn_nil.
  - now rewrite IH.
Qed.

Lemma slice_split (mem : Mem) (a b c : Z) :
  0 <= a -> a <= b -> b <= c ->
  slice mem a c = slice mem a b ++ slice mem b c.
Proof.
  intros Ha Hab Hbc. unfold slice.
  replace (Z.to_nat (c - a)) with (Z.to_nat (b - a) + Z.to_nat (c - b))%nat by lia.
  rewrite firstn_add_skipn, skipn_skipn. do 3 f_equal. lia.
Qed.

Lemma slice_inverted (mem : Mem) (lo hi : Z) : hi <= lo -> slice mem lo hi = [].
Proof.
  intros H. unfold slice. now replace (Z.to_nat (hi - lo)) with O by lia.
Qed.

Lemma slice_length (mem : Mem) (lo hi : Z) :
  (length (slice mem lo hi) <= Z.to_nat (hi - lo))%nat.
Proof. unfold slice. rewrite length_firstn. lia. Qed.

(** [collectCounts] on a range that ends inside the mapping, inverted
    ranges included. *)
Lemma collectCounts_tally (desc : list ascii) (mem : Mem) (start end_ : Z) :
  0 <= start -> end_ <= Z.of_nat (length mem) ->
  Z.of_nat (length mem) < 2 ^ 64 ->
  collectCounts desc start end_ mem
  = Ok (mkStats desc (tally (slice mem start end_))).
Proof.
  intros Hs He Hlen. unfold collectCounts.
  destruct (Z.le_gt_cases start end_) as [Hle|Hgt].
  - rewrite (count_loop_slice mem end_ He Hlen (Z.to_nat (end_ - start)));
      try lia.
    + reflexivity.
    + unfold below, zero. cbn [G C A T N total]. lia.
  - replace (Z.to_nat (end_ - start)) with O by lia.
    rewrite count_loop_S. destruct (Z.ltb_spec start end_); [lia|].
    cbn [bind]. now rewrite slice_inverted by lia.
Qed.

(** X1. Counting a range in two pieces gives the same counters as
    counting it at once: the counters of [[start, end_)] are the sums of
    those of [[start, mid)] and [[mid, end_)]. *)
Theorem collectCounts_split (desc : list ascii) (mem : Mem)
  (start mid end_ : Z) :
  0 <= start -> start <= mid -> mid <= end_ ->
  end_ <= Z.of_nat (length mem) -> Z.of_nat (length mem) < 2 ^ 64 ->
  exists k1 k2,
    collectCounts desc start mid mem = Ok (mkStats desc k1) /\
    collectCounts desc mid end_ mem = Ok (mkStats desc k2) /\
    collectCounts desc start end_ mem = Ok (mkStats desc (add_counts k1 k2)).
Proof.
  intros Hs Hsm Hme He Hlen.
  exists (tally (slice mem start mid)), (tally (slice mem mid end_)).
  rewrite !collectCounts_tally by lia.
  rewrite (slice_split mem start mid end_) by lia.
  now rewrite tally_app.
Qed.

Lemma collectCounts_split_witness :
  exists k1 k2,
    collectCounts [] 0 3 (bytes "GATTACA") = Ok (mkStats [] k1) /\
    collectCounts [] 3 7 (bytes "GATTACA") = Ok (mkStats [] k2) /\
    collectCounts [] 0 7 (bytes "GATTACA") = Ok (mkStats [] (add_counts k1 k2)).
Proof.
  apply (collectCounts_split [] (bytes "GATTACA") 0 3 7); now vm_compute.
Defined.

(** X3. The counters [collectCounts] returns are bounded by the range:
    none is negative, none exceeds [total], and [total] is at most the
    number of bytes of the range, so that no counter can wrap. *)
Theorem collectCounts_bounded (desc : list ascii) (mem : Mem) (start end_ : Z) :
  0 <= start -> start <= end_ -> end_ <= Z.of_nat (length mem) ->
  Z.of_nat (length mem) < 2 ^ 64 ->
  exists k,
    collectCounts desc start end_ mem = Ok (mkStats desc k) /\
    0 <= G k <= total k /\ 0 <= C k <= total k /\ 0 <= A k <= total k /\
    0 <= T k <= total k /\ 0 <= N k <= total k /\
    total k <= end_ - start.
Proof.
  intros Hs Hse He Hlen. eexists. split; [now apply collectCounts_tally|].
  unfold tally. cbn [G C A T N total].
  pose proof (occ_nonneg "G" (slice mem start end_)).
  pose proof (occ_nonneg "C" (slice mem start end_)).
  pose proof (occ_nonneg "A" (slice mem start end_)).
  pose proof (occ_nonneg "T" (slice mem start end_)).
  pose proof (occ_nonneg "N" (slice mem start end_)).
  repeat split; try lia.
  rewrite nucleotides_filter.
  pose proof (filter_length_le is_nucleotide (slice mem start end_)).
  pose proof (slice_length mem start end_). lia.
Qed.

Lemma collectCounts_bounded_witness :
  exists k,
    collectCounts [] 1 5 (bytes "GATTACA") = Ok (mkStats [] k) /\
    0 <= G k <= total k /\ 0 <= C k <= total k /\ 0 <= A k <= total k /\
    0 <= T k <= total k /\ 0 <= N k <= total k /\
    total k <= 5 - 1.
Proof.
  apply (collectCounts_bounded [] (bytes "GATTACA") 1 5); now vm_compute.
Defined.

End TallyRanges.

(** ** [getDescription] *)

Section DescriptionFacts.
Import Dispatcher.

Lemma until_newline_clean (l : list ascii) :
  ~ In newline (Claimed.until_newline l).
Proof.
  induction l as [|c l IH]; cbn [Claimed.until_newline]; [now intros []|].
  destruct (Ascii.eqb_spec c newline) as [->|Hc]; [now intros []|].
  intros [H|H]; [now apply Hc|now apply IH].
Qed.

Lemma until_newline_prefix (l : list ascii) :
  Claimed.until_newline l = firstn (length (Claimed.until_newline l)) l.
Proof.
  induction l as [|c l IH]; cbn [Claimed.until_newline]; [reflexivity|].
  destruct (Ascii.eqb c newline); [reflexivity|].
  cbn [length firstn]. now rewrite <- IH.
Qed.

Lemma until_newline_stops (l : list ascii) :
  existsb (fun c => Ascii.eqb c newline) l = true ->
  nth_error l (length (Claimed.until_newline l)) = Some newline.
Proof.
  induction l as [|c l IH]; cbn [Claimed.until_newline existsb]; [discriminate|].
  destruct (Ascii.eqb_spec c newline) as [->|Hc]; [reflexivity|].
  cbn [orb length nth_error]. exact IH.
Qed.

Lemma no_newline_anywhere (l : list ascii) :
  existsb (fun c => Ascii.eqb c newline) l = false ->
  Claimed.until_newline l = l /\ forall q, nth_error l q <> Some newline.
Proof.
  intros H.
  assert (Hq : forall q, nth_error l q <> Some newline).
  { intros q Hq. apply nth_error_In in Hq.
    assert (existsb (fun c => Ascii.eqb c newline) l = true); [|congruence].
    apply existsb_exists. exists newline. split; [exact Hq|apply Ascii.eqb_refl]. }
  split; [now apply until_newline_missing|exact Hq].
Qed.

Lemma first_newline_found (mem : Mem) (b size p : Z) :
  0 <= b -> first_newline mem b size = Some p ->
  b <= p < size /\ nth_error mem (Z.to_nat p) = Some newline /\
  Claimed.until_newline (slice mem b size) = slice mem b p.
Proof.
  intros Hb. unfold first_newline, ending_from.
  destruct (existsb _ (slice mem b size)) eqn:E; [|discriminate].
  intros Hp. inversion Hp as [Hp']. clear Hp.
  pose proof (until_newline_stops _ E) as Hnl.
  remember (length (Claimed.until_newline (slice mem b size))) as n eqn:Hn.
  assert (Hlt : (n < Z.to_nat (size - b))%nat).
  { pose proof (slice_length mem b size).
    assert (n < length (slice mem b size))%nat; [|lia].
    apply nth_error_Some. congruence. }
  rewrite slice_nth in Hnl by assumption. subst p.
  split; [lia|]. split; [exact Hnl|].
  rewrite until_newline_prefix, <- Hn.
  rewrite <- (slice_firstn mem b (b + Z.of_nat n) size) by lia.
  f_equal. lia.
Qed.

Lemma first_newline_missing (mem : Mem) (b size : Z) :
  0 <= b -> first_newline mem b size = None ->
  Claimed.until_newline (slice mem b size) = slice mem b size /\
  forall q, b <= q < size -> nth_error mem (Z.to_nat q) <> Some newline.
Proof.
  intros Hb. unfold first_newline, ending_from.
  destruct (existsb _ (slice mem b size)) eqn:E; [discriminate|]. intros _.
  destruct (no_newline_anywhere _ E) as [Hall Hq]. split; [exact Hall|].
  intros q Hrange Hnl. apply (Hq (Z.to_nat (q - b))).
  rewrite slice_nth by lia. rewrite <- Hnl. f_equal. lia.
Qed.

(** X4. Inside the mapping [getDescription] always returns, and the
    description never holds a line break. When [ending] was assigned, it
    is the offset of the first line break at or after [start], and the
    description is the bytes from [start] up to it; when it was not, there
    is no line break from [start] to [size] and the description is all
    these bytes (none when [start >= size]). *)
Theorem getDescription_first_line (mem : Mem) (start size : Z) :
  0 <= start -> size <= Z.of_nat (length mem) ->
  Z.of_nat (length mem) < 2 ^ 64 ->
  exists d,
    getDescription mem start size = Ok d /\
    ~ In newline (desc d) /\
    match ending d with
    | Some p =>
        start <= p < size /\
        nth_error mem (Z.to_nat p) = Some newline /\
        (forall q, start <= q < p -> nth_error mem (Z.to_nat q) <> Some newline) /\
        desc d = slice mem start p
    | None =>
        (forall q, start <= q < size -> nth_error mem (Z.to_nat q) <> Some newline) /\
        desc d = slice mem start size
    end.
Proof.
  intros Hs Hsize Hlen. eexists. split; [now apply getDescription_line|].
  cbn [desc ending]. split; [apply until_newline_clean|].
  destruct (first_newline mem start size) as [p|] eqn:E.
  - destruct (first_newline_found mem start size p Hs E) as (Hp & Hnl & Hd).
    split; [exact Hp|]. split; [exact Hnl|]. split; [|exact Hd].
    intros q Hq Hqnl.
    apply (until_newline_clean (slice mem start size)). rewrite Hd.
    apply (nth_error_In _ (Z.to_nat (q - start))).
    rewrite slice_nth by lia. rewrite <- Hqnl. f_equal. lia.
  - destruct (first_newline_missing mem start size Hs E) as [Hd Hnone].
    now split.
Qed.

Lemma getDescription_first_line_witness :
  exists d,
    getDescription (bytes ">ab" ++ nl ++ bytes "GG") 0 6 = Ok d /\
    ~ In newline (desc d) /\
    match ending d with
    | Some p =>
        0 <= p < 6 /\
        nth_error (bytes ">ab" ++ nl ++ bytes "GG") (Z.to_nat p) = Some newline /\
        (forall q, 0 <= q < p ->
           nth_error (bytes ">ab" ++ nl ++ bytes "GG") (Z.to_nat q) <> Some newline) /\
        desc d = slice (bytes ">ab" ++ nl ++ bytes "GG") 0 p
    | None =>
        (forall q, 0 <= q < 6 ->
           nth_error (bytes ">ab" ++ nl ++ bytes "GG") (Z.to_nat q) <> Some newline) /\
        desc d = slice (bytes ">ab" ++ nl ++ bytes "GG") 0 6
    end.
Proof.
  apply (getDescription_first_line (bytes ">ab" ++ nl ++ bytes "GG") 0 6);
    now vm_compute.
Defined.

End DescriptionFacts.

(** ** [processChunks] and [getIndicies] *)

Section ScannerMore.
Import Scanner.

Lemma marker_at_true (mem : Mem) (p : Z) :
  marker_at mem p = true <-> nth_error mem (Z.to_nat p) = Some marker.
Proof.
  unfold marker_at. destruct (nth_error mem (Z.to_nat p)) as [c|].
  - rewrite Ascii.eqb_eq. split; [now intros ->|now inversion 1].
  - split; discriminate.
Qed.

Lemma markers_count (mem l : list ascii) (s : nat) :
  (forall j, (j < length l)%nat -> nth_error mem (s + j) = nth_error l j) ->
  length (filter (marker_at mem)
            (map (fun k => 0 + Z.of_nat k) (seq s (length l))))
  = count_occ ascii_dec l marker.
Proof.
  revert s. induction l as [|c l IH]; intros s Hl; [reflexivity|].
  cbn [length seq map filter count_occ].
  assert (Hc : marker_at mem (0 + Z.of_nat s) = Ascii.eqb c marker).
  { unfold marker_at. replace (Z.to_nat (0 + Z.of_nat s)) with (s + 0)%nat by lia.
    now rewrite (Hl 0%nat) by (cbn [length]; lia). }
  rewrite Hc.
  assert (IH' : length (filter (marker_at mem)
                          (map (fun k => 0 + Z.of_nat k) (seq (S s) (length l))))
                = count_occ ascii_dec l marker).
  { apply IH. intros j Hj. replace (S s + j)%nat with (s + S j)%nat by lia.
    now rewrite (Hl (S j)) by (cbn [length]; lia). }
  destruct (ascii_dec c marker) as [->|Hne].
  - rewrite Ascii.eqb_refl. cbn [length]. now rewrite IH'.
  - destruct (Ascii.eqb_spec c marker); [contradiction|]. exact IH'.
Qed.

(** X5. On a range inside the mapping, a scanning thread pushes exactly
    the offsets of the range that hold a header marker, each once and in
    ascending order. *)
Theorem processChunks_pushes_markers (mem : Mem) (start end_ : Z) :
  0 <= start -> end_ <= Z.of_nat (length mem) ->
  Z.of_nat (length mem) < 2 ^ 64 ->
  exists pushed,
    processChunks mem start end_ = Ok pushed /\
    ascending pushed /\
    forall p, In p pushed <->
              start <= p < end_ /\ nth_error mem (Z.to_nat p) = Some marker.
Proof.
  intros Hs He Hlen. exists (markers_in mem start end_).
  split; [now apply processChunks_markers|].
  split; [apply markers_in_ascending|].
  intros p. now rewrite in_markers_in, marker_at_true.
Qed.

Lemma processChunks_pushes_markers_witness :
  exists pushed,
    processChunks (bytes ">a>b>") 1 4 = Ok pushed /\
    ascending pushed /\
    forall p, In p pushed <->
              1 <= p < 4 /\ nth_error (bytes ">a>b>") (Z.to_nat p) = Some marker.
Proof.
  apply (processChunks_pushes_markers (bytes ">a>b>") 1 4); now vm_compute.
Defined.

(** X6. Whatever the worker count [w >= 1] and the schedule, the
    boundary list holds the offset of every header marker of the file and
    the sentinel [size], and nothing else; it has one entry more than the
    file has markers. *)
Theorem getIndicies_all_markers (mem : Mem) (size w : Z) (r : result (list Z)) :
  size = Z.of_nat (length mem) -> size < 2 ^ 64 -> 1 <= w <= INT_MAX ->
  getIndicies [] mem size w r ->
  exists l,
    r = Ok l /\
    (forall p, In p l <->
               p = size \/
               (0 <= p < size /\ nth_error mem (Z.to_nat p) = Some marker)) /\
    length l = S (count_occ ascii_dec mem marker).
Proof.
  intros Hsize Hlen Hw Hrun.
  rewrite (getIndicies_boundaries mem size w r Hsize Hlen Hw Hrun).
  eexists. split; [reflexivity|]. split.
  - intros p. rewrite in_app_iff, in_markers_in, marker_at_true.
    cbn [In]. split; [intros [H|[H|[]]]; auto | intros [H|H]; auto].
  - rewrite length_app. cbn [length]. rewrite Nat.add_1_r. f_equal.
    subst size. unfold markers_in, offsets.
    rewrite Z.sub_0_r, Nat2Z.id.
    apply (markers_count mem mem 0). intros j _. reflexivity.
Qed.

Lemma getIndicies_all_markers_witness :
  exists l,
    Ok [0; 2; 7] = Ok l /\
    (forall p, In p l <->
               p = 7 \/
               (0 <= p < 7 /\
                nth_error (bytes ">a>b" ++ nl ++ bytes "GG") (Z.to_nat p) = Some marker)) /\
    length l = S (count_occ ascii_dec (bytes ">a>b" ++ nl ++ bytes "GG") marker).
Proof.
  apply (getIndicies_all_markers (bytes ">a>b" ++ nl ++ bytes "GG") 7 2);
    [reflexivity | now vm_compute | split; now vm_compute |].
  apply (getIndicies_returns (bytes ">a>b" ++ nl ++ bytes "GG") 7 2);
    [reflexivity | now vm_compute | split; now vm_compute].
Defined.

End ScannerMore.

Section ScannerEdges.
Import Scanner.

Lemma sort_insert_head (x y : Z) (l : list Z) :
  HdRel Z.le y l -> y <= x -> HdRel Z.le y (sort_insert x l).
Proof.
  intros Hl Hyx. destruct l as [|z l]; cbn [sort_insert]; [now constructor|].
  destruct (z <? x); constructor; [now inversion Hl|exact Hyx].
Qed.

Lemma sort_insert_sorted (x : Z) (l : list Z) :
  Sorted Z.le l -> Sorted Z.le (sort_insert x l).
Proof.
  induction 1 as [|y l Hl IH Hy]; cbn [sort_insert]; [repeat constructor|].
  destruct (Z.ltb_spec y x).
  - constructor; [exact IH|]. apply sort_insert_head; [exact Hy|lia].
  - constructor; [now constructor|]. now constructor.
Qed.

Lemma std_sort_sorted (l : list Z) : Sorted Z.le (std_sort l).
Proof.
  induction l as [|x l IH]; cbn [std_sort]; [constructor|].
  now apply sort_insert_sorted.
Qed.

(** X7. [getIndicies] appends to the vector it is given and sorts the
    whole: whatever the initial content, the worker count and the
    schedule, when it returns the vector is in non-decreasing order, still
    holds every entry it held before, and holds the sentinel [size]; so
    it is never empty. *)
Theorem getIndicies_keeps_and_sorts (indicies : list Z) (mem : Mem)
  (size w : Z) (l : list Z) :
  getIndicies indicies mem size w (Ok l) ->
  Sorted Z.le l /\ incl indicies l /\ In size l /\ l <> [].
Proof.
  intros Hrun.
  inversion Hrun as [| |ranges pushes shared _ _ _ Hl]; subst.
  pose proof (std_sort_permutation (indicies ++ shared ++ [size])) as Hperm.
  assert (Hsize : In size (std_sort (indicies ++ shared ++ [size]))).
  { apply (Permutation_in _ Hperm). rewrite !in_app_iff. right. right. now left. }
  split; [apply std_sort_sorted|]. split; [|split].
  - intros x Hx. apply (Permutation_in _ Hperm). rewrite in_app_iff. now left.
  - exact Hsize.
  - intros E. now rewrite E in Hsize.
Qed.

Lemma getIndicies_keeps_and_sorts_witness :
  Sorted Z.le [0; 2; 5] /\ incl [5] [0; 2; 5] /\ In 2 [0; 2; 5] /\ [0; 2; 5] <> [].
Proof.
  apply (getIndicies_keeps_and_sorts [5] (bytes ">a") 2 1 [0; 2; 5]).
  apply (getIndicies_sorted [5] (bytes ">a") 2 1 [(0, 2)] [[0]] [0]);
    [reflexivity | reflexivity | apply (interleave_sequential [[0]])].
Defined.

Lemma interleave_none {X : Type} (shared : list X) :
  interleave [] shared -> shared = [].
Proof.
  inversion 1 as [|ls1 x xs ls2 out _ E]; [reflexivity|].
  now destruct ls1.
Qed.

Lemma chunk_ranges_negative (size w : Z) :
  INT_MIN <= w < 0 -> chunk_ranges size w = Ok [].
Proof.
  intros Hw. unfold chunk_ranges. pose proof INT_MIN_INT_MAX.
  rewrite u64_of_int_zero by lia.
  destruct (Z.eqb_spec w 0); [lia|].
  now replace (Z.to_nat w) with O by lia.
Qed.

(** X8. With a negative worker count the division is by the count
    converted to [uint64_t], not by zero, and the loop that launches the
    scanning threads does not run: whatever the file holds, the boundary
    list is the sentinel alone and no header marker is found. *)
Theorem getIndicies_negative_workers (mem : Mem) (size w : Z)
  (r : result (list Z)) :
  INT_MIN <= w < 0 ->
  getIndicies [] mem size w r <-> r = Ok [size].
Proof.
  intros Hw. pose proof (chunk_ranges_negative size w Hw) as Hr. split.
  - intros Hrun.
    inversion Hrun as [f E|ranges f E1 E2|ranges pushes shared E1 E2 Hil];
      subst; rewrite Hr in *; try discriminate.
    + inversion E1; subst ranges. discriminate.
    + inversion E1; subst ranges. cbn in E2. inversion E2; subst pushes.
      apply interleave_none in Hil. now subst shared.
  - intros ->.
    apply (getIndicies_sorted [] mem size w [] [] [] Hr eq_refl).
    constructor. constructor.
Qed.

Lemma getIndicies_negative_workers_witness :
  getIndicies [] (bytes ">a>b") 4 (-2) (Ok [4]) <-> Ok [4] = Ok [4].
Proof.
  apply (getIndicies_negative_workers (bytes ">a>b") 4 (-2)).
  split; now vm_compute.
Defined.

Lemma map_seq_constant {X : Type} (f : nat -> X) (c : X) (m : nat) :
  (forall k, (k < m)%nat -> f k = c) -> map f (seq 0 m) = repeat c m.
Proof.
  induction m as [|m IH]; intros Hf; [reflexivity|].
  rewrite seq_S, map_app, IH by (intros k Hk; apply Hf; lia).
  cbn [map plus repeat]. rewrite Hf by lia. now rewrite repeat_cons.
Qed.

(** X9. With more workers than the file has bytes the chunk size is 0:
    every thread but the last gets the empty range [[0, 0)] and the last
    one scans the whole file. *)
Theorem chunk_ranges_more_workers_than_bytes (size w : Z) :
  0 <= size -> size < w -> w <= INT_MAX ->
  chunk_ranges size w
  = Ok (repeat (0, 0) (Z.to_nat (w - 1)) ++ [(0, size)]).
Proof.
  intros Hsize Hlt Hw. pose proof INT_MAX_small. pose proof two63_lt_two64.
  rewrite chunk_ranges_floor by lia. f_equal.
  replace (Z.to_nat w) with (S (Z.to_nat (w - 1))) by lia.
  rewrite seq_S, map_app. cbn [map plus].
  unfold floor_range. rewrite (Z.div_small size w) by lia. f_equal.
  - apply map_seq_constant. intros k Hk.
    destruct (Z.eqb_spec (Z.of_nat k) (w - 1)); [lia|].
    f_equal; lia.
  - destruct (Z.eqb_spec (Z.of_nat (Z.to_nat (w - 1))) (w - 1)); [|lia].
    do 2 f_equal. lia.
Qed.

Lemma chunk_ranges_more_workers_than_bytes_witness :
  chunk_ranges 2 4 = Ok (repeat (0, 0) (Z.to_nat (4 - 1)) ++ [(0, 2)]).
Proof.
  apply (chunk_ranges_more_workers_than_bytes 2 4); now vm_compute.
Defined.

End ScannerEdges.

(** ** [stageCollections] at its edges *)

Section DispatcherEdges.
Import Dispatcher.

(** X10. On an empty vector [indicies.size() - 1] wraps around to the
    largest [size_t], the loop is entered and [indicies[0]] is read: with
    a worker count [w >= 1], [stageCollections] reads outside the vector. *)
Theorem stageCollections_empty_vector (fuel : nat) (mem : Mem) (size w : Z) :
  fuel <> 0%nat -> 1 <= w ->
  stageCollections fuel [] mem size w = Err OutOfBounds.
Proof.
  intros Hfuel Hw. destruct fuel as [|fuel]; [contradiction|].
  unfold stageCollections. rewrite stage_loop_S.
  change (0 <? last_index []) with true. cbn match.
  unfold launch_wave. rewrite launch_loop_S.
  destruct (Z.ltb_spec 0 w); [|lia].
  cbn zeta. change (wrap64 (0 + u64_of_int 0)) with 0.
  change (0 <? last_index []) with true. reflexivity.
Qed.

Lemma stageCollections_empty_vector_witness :
  stageCollections 1 [] (bytes ">a") 2 3 = Err OutOfBounds.
Proof.
  apply (stageCollections_empty_vector 1 (bytes ">a") 2 3); [discriminate|lia].
Defined.

End DispatcherEdges.

(** ** The threads inside [printStats] *)

Section SinkProgress.
Import Sink.

Variables (tables : list (list ascii)) (out0 : list ascii).

(** X11. The printing threads never block one another for good: in every
    reachable state where some thread has not yet left [printStats], one
    of the threads can take a step. *)
Theorem printStats_no_deadlock (s : State) :
  reachable tables out0 s ->
  (exists k, (k < length tables)%nat /\ pcs s k <> Released) ->
  exists s', printStats tables s s'.
Proof.
  intros Hreach (k & Hk & Hpc).
  destruct (reachable_consistent _ _ _ Hreach) as (order & partial & Hc).
  destruct Hc as [_ _ _ Hlock _].
  destruct (mute s) as [h|] eqn:Hmute.
  - destruct Hlock as (rest & Hh & _).
    destruct rest as [|c rest]; eexists.
    + now apply (printStats_unlock tables s h).
    + now apply (printStats_write tables s h c rest).
  - destruct Hlock as [_ Hfree].
    destruct (pcs s k) as [|rest|] eqn:Ek.
    + destruct (nth_error tables k) as [tbl|] eqn:Et.
      * eexists. now apply (printStats_lock tables s k tbl).
      * apply nth_error_None in Et. lia.
    + now apply Hfree in Ek.
    + now contradiction Hpc.
Qed.

Lemma list_sum_cons (x : nat) (l : list nat) :
  list_sum (x :: l) = (x + list_sum l)%nat.
Proof. reflexivity. Qed.

Lemma list_sum_update (f g : nat -> nat) (k n : nat) :
  (k < n)%nat -> (forall j, j <> k -> f j = g j) -> (f k + 1 = g k)%nat ->
  forall s, (s <= k)%nat ->
    (list_sum (map f (seq s (n - s))) + 1 = list_sum (map g (seq s (n - s))))%nat.
Proof.
  intros Hk Hother Hat.
  assert (Hsame : forall m s, (k < s)%nat ->
            list_sum (map f (seq s m)) = list_sum (map g (seq s m))).
  { induction m as [|m IH]; intros s Hs; [reflexivity|].
    cbn [seq map]. rewrite !list_sum_cons, Hother by lia.
    now rewrite IH by lia. }
  intros s. remember (n - s)%nat as m eqn:Hm. revert s Hm.
  induction m as [|m IH]; intros s Hm Hs; [lia|].
  cbn [seq map]. rewrite !list_sum_cons.
  destruct (Nat.eq_dec s k) as [->|Hne].
  - rewrite (Hsame m (S k)) by lia. lia.
  - rewrite Hother by exact Hne. rewrite <- (IH (S s)) by lia. lia.
Qed.

Lemma work_left_step (s s' : State) :
  reachable tables out0 s -> printStats tables s s' ->
  (work_left tables (pcs s') + 1 = work_left tables (pcs s))%nat.
Proof.
  intros Hreach Hstep.
  destruct (reachable_consistent _ _ _ Hreach) as (order & partial & Hc).
  unfold work_left.
  rewrite <- (Nat.sub_0_r (length tables)).
  destruct Hstep as [s k tbl Htbl Hpc Hmute|s k c rest Hpc|s k Hpc]; cbn [pcs].
  - apply (list_sum_update _ _ k); try lia.
    + apply nth_error_Some. congruence.
    + intros j Hj. now rewrite set_pc_other.
    + rewrite set_pc_same, Hpc. cbn [steps_left].
      unfold table_of. rewrite (nth_error_nth _ _ _ Htbl). lia.
  - apply (list_sum_update _ _ k); try lia.
    + apply (started_threads _ _ _ _ _ Hc). rewrite Hpc. discriminate.
    + intros j Hj. now rewrite set_pc_other.
    + rewrite set_pc_same, Hpc. cbn [steps_left length]. lia.
  - apply (list_sum_update _ _ k); try lia.
    + apply (started_threads _ _ _ _ _ Hc). rewrite Hpc. discriminate.
    + intros j Hj. now rewrite set_pc_other.
    + rewrite set_pc_same, Hpc. reflexivity.
Qed.

Lemma work_left_init :
  work_left tables (pcs (init out0))
  = list_sum (map (fun tbl => length tbl + 2)%nat tables).
Proof.
  unfold work_left, init. cbn [pcs steps_left]. unfold table_of.
  clear out0. induction tables as [|tbl l IH]; [reflexivity|].
  cbn [length seq map nth]. rewrite !list_sum_cons. f_equal.
  rewrite <- seq_shift, map_map. exact IH.
Qed.

(** X12. The printing threads are done after a bounded number of steps:
    a run of [n] steps from the start leaves exactly the work of the
    threads minus [n], where a thread that prints a table of [b] bytes
    has [b + 2] steps to take; so no run is longer than the sum of these. *)
Theorem printStats_bounded_run (n : nat) (s : State) :
  run tables n (init out0) s ->
  (n + work_left tables (pcs s)
   = list_sum (map (fun tbl => length tbl + 2) tables))%nat.
Proof.
  rewrite <- work_left_init.
  assert (H : forall s0, reachable tables out0 s0 -> run tables n s0 s ->
                (n + work_left tables (pcs s) = work_left tables (pcs s0))%nat).
  { intros s0 Hreach Hrun. induction Hrun as [s0|n s0 s1 s2 Hstep _ IH].
    - reflexivity.
    - rewrite <- (work_left_step s0 s1 Hreach Hstep).
      rewrite <- IH by (eapply reach_step; eauto). lia. }
  apply H. constructor.
Qed.

End SinkProgress.

Section SinkWitnesses.
Import Sink.

Lemma printStats_no_deadlock_witness :
  exists s', printStats [bytes "ab"] (init []) s'.
Proof.
  apply (printStats_no_deadlock [bytes "ab"] [] (init [])).
  - constructor.
  - exists 0%nat. split; [cbn [length]; lia|discriminate].
Defined.

Lemma printStats_bounded_run_witness :
  (1 + work_left [bytes "ab"]
         (set_pc 0 (Locked (bytes "ab")) (fun _ => Formatted))
   = list_sum (map (fun tbl => length tbl + 2) [bytes "ab"]))%nat.
Proof.
  apply (printStats_bounded_run [bytes "ab"] [] 1
           (mkState (Some 0%nat) [] (set_pc 0 (Locked (bytes "ab")) (fun _ => Formatted)))).
  eapply run_step; [|apply run_stop].
  apply (printStats_lock [bytes "ab"] (init []) 0); reflexivity.
Defined.

End SinkWitnesses.

(** ** The text of a block *)

Section BlockText.
Import Sink.

Lemma digits_clean (d : Decimal.uint) :
  ~ In newline (list_ascii_of_string (DecimalString.NilEmpty.string_of_uint d)).
Proof.
  induction d; cbn [DecimalString.NilEmpty.string_of_uint list_ascii_of_string];
    [now intros [] | intros [H|H]; [discriminate H | auto] ..].
Qed.

Lemma dec_clean (n : Z) : ~ In newline (dec n).
Proof.
  unfold dec, bytes, DecimalString.NilZero.string_of_uint.
  destruct (N.to_uint (Z.to_N n)) eqn:E; try (rewrite <- E; apply digits_clean).
  cbn. intros [H|H]; [discriminate H|exact H].
Qed.

Lemma to_uint_nonnil (n : N) : N.to_uint n <> Decimal.Nil.
Proof.
  destruct n as [|p]; [discriminate|].
  apply DecimalPos.Unsigned.to_uint_nonnil.
Qed.

Lemma dec_inj (a b : Z) : 0 <= a -> 0 <= b -> dec a = dec b -> a = b.
Proof.
  intros Ha Hb E. unfold dec, bytes in E.
  apply (f_equal string_of_list_ascii) in E.
  rewrite !string_of_list_ascii_of_string in E.
  apply (f_equal DecimalString.NilZero.uint_of_string) in E.
  rewrite !DecimalString.NilZero.usu in E by apply to_uint_nonnil.
  inversion E as [E']. apply DecimalN.Unsigned.to_uint_inj in E'.
  now apply Z2N.inj.
Qed.

Lemma line_split (a b r1 r2 : list ascii) :
  ~ In newline a -> ~ In newline b ->
  a ++ newline :: r1 = b ++ newline :: r2 -> a = b /\ r1 = r2.
Proof.
  revert b. induction a as [|x a IH]; intros [|y b] Ha Hb E; cbn [app] in E.
  - now inversion E.
  - inversion E; subst y. exfalso. apply Hb. now left.
  - inversion E; subst x. exfalso. apply Ha. now left.
  - inversion E; subst y.
    destruct (IH b) as [-> ->]; auto.
    + intros H. apply Ha. now right.
    + intros H. apply Hb. now right.
Qed.

(** X13. A block can be read back: two results whose headers hold no
    line break and whose counters are [size_t] values, and for which
    [printStats] builds the same text, are the same result. *)
Theorem table_injective (s1 s2 : Tally.Stats) :
  ~ In newline (Tally.desc s1) -> ~ In newline (Tally.desc s2) ->
  below (2 ^ 64) (Tally.counts s1) -> below (2 ^ 64) (Tally.counts s2) ->
  table s1 = table s2 -> s1 = s2.
Proof.
  intros Hd1 Hd2 (G1 & C1 & A1 & T1 & N1 & S1) (G2 & C2 & A2 & T2 & N2 & S2) E.
  destruct s1 as [d1 [g1 c1 a1 t1 n1 tot1]], s2 as [d2 [g2 c2 a2 t2 n2 tot2]].
  cbn [Tally.desc Tally.counts Tally.G Tally.C Tally.A Tally.T Tally.N Tally.total] in *.
  unfold table in E.
  cbn [Tally.desc Tally.counts Tally.G Tally.C Tally.A Tally.T Tally.N Tally.total
       nl app] in E.
  injection E as E.
  apply line_split in E; [|assumption|assumption]. destruct E as [-> E].
  repeat (first [ apply line_split in E;
                  [destruct E as [? E] | apply dec_clean | apply dec_clean]
                | injection E as E ]).
  repeat match goal with
         | H : dec _ = dec _ |- _ => apply dec_inj in H; [|lia|lia]
         end.
  now subst.
Qed.

Lemma table_injective_witness :
  Tally.mkStats (bytes ">a") (Tally.mkCounts 1 0 0 0 0 1)
  = Tally.mkStats (bytes ">a") (Tally.mkCounts 1 0 0 0 0 1).
Proof.
  apply table_injective.
  - intros [H|[H|[]]]; discriminate H.
  - intros [H|[H|[]]]; discriminate H.
  - repeat split; now vm_compute.
  - repeat split; now vm_compute.
  - reflexivity.
Defined.

End BlockText.

(** ** The contents of the waves *)

Section WaveContents.
Import Dispatcher.

Variables (mem : Mem) (size : Z) (indicies : list Z).
Hypothesis size_mapped : size <= Z.of_nat (length mem).
Hypothesis mem_small : Z.of_nat (length mem) < 2 ^ 64.
Hypothesis list_nonempty : 1 <= Z.of_nat (length indicies) <= 2 ^ 63.
Hypothesis list_unsigned : Forall (fun b => 0 <= b) indicies.

Local Abbreviation n := (Z.of_nat (length indicies)).

Lemma stage_loop_wave_at (w : Z) :
  1 <= w <= INT_MAX ->
  forall (fuel : nat) (i : Z) (waves : list (list Task)),
    0 <= i <= n - 1 ->
    stage_loop fuel indicies mem size w i = Ok waves ->
    forall (j : nat) (wave : list Task),
      nth_error waves j = Some wave ->
      i + Z.of_nat j * w < n - 1 /\
      wave = tasks_of indicies mem size (i + Z.of_nat j * w)
               (Z.min (i + (Z.of_nat j + 1) * w) (n - 1)).
Proof.
  intros Hw. induction fuel as [|fuel IH]; intros i waves Hi E j wave Hj;
    [discriminate|].
  rewrite stage_loop_S, last_index_nonempty in E by exact list_nonempty.
  destruct (Z.ltb_spec i (n - 1)) as [Hlt|Hge].
  - rewrite (launch_wave_tasks mem size indicies size_mapped mem_small
               list_nonempty list_unsigned w i Hw Hi) in E.
    cbn [bind fst snd] in E.
    rewrite (stage_loop_next mem indicies list_nonempty w i Hw Hi) in E.
    destruct (stage_loop fuel indicies mem size w (Z.min (i + w) (n - 1)))
      as [rest|f] eqn:Erest; [|discriminate].
    cbn [bind] in E. inversion E; subst waves.
    destruct j as [|j]; cbn [nth_error] in Hj.
    + inversion Hj; subst wave.
      replace (i + Z.of_nat 0 * w) with i by lia.
      replace (i + (Z.of_nat 0 + 1) * w) with (i + w) by lia.
      split; [lia|reflexivity].
    + destruct (IH (Z.min (i + w) (n - 1)) rest ltac:(lia) Erest j wave Hj)
        as [Hbefore ->].
      assert (0 <= Z.of_nat j * w) by (apply Z.mul_nonneg_nonneg; lia).
      assert (Hfull : Z.min (i + w) (n - 1) = i + w) by lia.
      rewrite Hfull in *.
      replace (i + Z.of_nat (S j) * w) with (i + w + Z.of_nat j * w) by lia.
      replace (i + (Z.of_nat (S j) + 1) * w)
        with (i + w + (Z.of_nat j + 1) * w) by lia.
      split; [lia|reflexivity].
  - inversion E; subst waves. now destruct j.
Qed.

End WaveContents.

Section WaveSchedule.
Import Dispatcher.

(** X14. With a worker count [w >= 1], wave [j] of [stageCollections]
    launches the threads of the records [j * w], ..., up to [w] of them
    and no further than the last record [n - 2], in this order: every
    wave but the last is full. *)
Theorem stageCollections_wave_contents (mem : Mem) (size : Z)
  (indicies : list Z) (w : Z) (fuel : nat) :
  size <= Z.of_nat (length mem) -> Z.of_nat (length mem) < 2 ^ 64 ->
  1 <= Z.of_nat (length indicies) <= 2 ^ 63 ->
  Forall (fun b => 0 <= b) indicies ->
  1 <= w <= INT_MAX -> (length indicies <= fuel)%nat ->
  exists waves,
    stageCollections fuel indicies mem size w = Ok waves /\
    forall (j : nat) (wave : list Task),
      nth_error waves j = Some wave ->
      Z.of_nat j * w < Z.of_nat (length indicies) - 1 /\
      wave = map (task_of indicies mem size)
               (offsets (Z.of_nat j * w)
                  (Z.min ((Z.of_nat j + 1) * w) (Z.of_nat (length indicies) - 1))).
Proof.
  intros Hsize Hlen Hn Hpos Hw Hfuel.
  destruct (stageCollections_waves mem size indicies Hsize Hlen Hn Hpos w Hw
              fuel Hfuel) as (waves & E & _).
  exists waves. split; [exact E|]. intros j wave Hj.
  exact (stage_loop_wave_at mem size indicies Hsize Hlen Hn Hpos w Hw
           fuel 0 waves ltac:(lia) E j wave Hj).
Qed.

Lemma stageCollections_wave_contents_witness :
  exists waves,
    stageCollections 4 [0; 2; 4; 6] (bytes ">a>b>c") 6 2 = Ok waves /\
    forall (j : nat) (wave : list Task),
      nth_error waves j = Some wave ->
      Z.of_nat j * 2 < 4 - 1 /\
      wave = map (task_of [0; 2; 4; 6] (bytes ">a>b>c") 6)
               (offsets (Z.of_nat j * 2) (Z.min ((Z.of_nat j + 1) * 2) (4 - 1))).
Proof.
  apply (stageCollections_wave_contents (bytes ">a>b>c") 6 [0; 2; 4; 6] 2 4).
  - now vm_compute.
  - now vm_compute.
  - split; now vm_compute.
  - repeat constructor; lia.
  - split; now vm_compute.
  - cbn [length]. lia.
Defined.

End WaveSchedule.

(** ** The results of a whole file *)

Section FileResults.
Import Scanner Dispatcher.

Lemma boundaries_entry (mem : Mem) (size : Z) (j : nat) :
  0 <= size -> (j < length (boundaries mem size))%nat ->
  0 <= nth j (boundaries mem size) 0 <= size.
Proof.
  intros Hsize Hj.
  assert (Hin : In (nth j (boundaries mem size) 0) (boundaries mem size))
    by now apply nth_In.
  unfold boundaries in Hin at 2. apply in_app_iff in Hin.
  destruct Hin as [Hin|[<-|[]]]; [|lia].
  apply in_markers_in in Hin. lia.
Qed.

Lemma boundaries_marker (mem : Mem) (size : Z) (j : nat) :
  (S j < length (boundaries mem size))%nat ->
  0 <= nth j (boundaries mem size) 0 < size.
Proof.
  unfold boundaries. rewrite length_app. cbn [length]. intros Hj.
  rewrite app_nth1 by lia.
  assert (Hin : In (nth j (markers_in mem 0 size) 0) (markers_in mem 0 size))
    by (apply nth_In; lia).
  apply in_markers_in in Hin. lia.
Qed.

Lemma run_task_record (mem : Mem) (size : Z) (indicies : list Z) (k : Z) :
  size <= Z.of_nat (length mem) -> Z.of_nat (length mem) < 2 ^ 64 ->
  0 <= nth (Z.to_nat k) indicies 0 ->
  nth (Z.to_nat (k + 1)) indicies 0 <= Z.of_nat (length mem) ->
  run_task mem (task_of indicies mem size k)
  = record_result mem size (nth (Z.to_nat k) indicies 0)
      (nth (Z.to_nat (k + 1)) indicies 0).
Proof.
  intros Hsize Hlen Hb He. unfold run_task, task_of, record_result.
  cbn [t_start t_desc t_end].
  destruct (first_newline mem (nth (Z.to_nat k) indicies 0) size) as [p|] eqn:E;
    [|reflexivity].
  destruct (first_newline_found mem _ size p Hb E) as (Hp & _ & ->).
  apply collectCounts_tally; lia.
Qed.

Lemma pipeline_record_results (mem : Mem) (size w : Z)
  (out : list (result Tally.Stats)) :
  size = Z.of_nat (length mem) -> size < 2 ^ 63 -> 1 <= w <= INT_MAX ->
  pipeline mem size w out ->
  Permutation
    (map (fun k => record_result mem size
                     (nth (Z.to_nat k) (boundaries mem size) 0)
                     (nth (Z.to_nat (k + 1)) (boundaries mem size) 0))
         (offsets 0 (Z.of_nat (length (boundaries mem size)) - 1)))
    out.
Proof.
  intros Hsize Hlen Hw Hrun. pose proof two63_lt_two64.
  rewrite <- (pipeline_records mem size w out Hsize Hlen Hw Hrun).
  unfold tasks_of. fold (boundaries mem size). rewrite map_map.
  apply Permutation_refl'. apply map_ext_in. intros k Hk.
  apply in_offsets in Hk. symmetry. apply run_task_record; try lia.
  - apply boundaries_entry; lia.
  - rewrite <- Hsize. apply boundaries_entry; lia.
Qed.

(** X15. What the two phases compute for a file, whatever the worker
    count [w >= 1] and the schedules: one result per header marker; for
    the record between the boundaries [b] and [e], when a line break
    follows [b] at [p] the header is the bytes from [b] to [p] and the
    counters are those of the bytes from [p] to [e] (all zero when [p]
    lies beyond [e]); when no line break follows [b] up to the end of the
    file, the start of the range was never assigned. *)
Theorem pipeline_results_of_file (mem : Mem) (size w : Z)
  (out : list (result Tally.Stats)) :
  size = Z.of_nat (length mem) -> size < 2 ^ 63 -> 1 <= w <= INT_MAX ->
  pipeline mem size w out ->
  Permutation
    (map (fun k => record_result mem size
                     (nth (Z.to_nat k) (boundaries mem size) 0)
                     (nth (Z.to_nat (k + 1)) (boundaries mem size) 0))
         (offsets 0 (Z.of_nat (length (boundaries mem size)) - 1)))
    out /\
  length out = count_occ ascii_dec mem marker.
Proof.
  intros Hsize Hlen Hw Hrun.
  pose proof (pipeline_record_results mem size w out Hsize Hlen Hw Hrun) as Hp.
  split; [exact Hp|].
  rewrite <- (Permutation_length Hp).
  assert (Hm : length (markers_in mem 0 size) = count_occ ascii_dec mem marker).
  { subst size. unfold markers_in, offsets. rewrite Z.sub_0_r, Nat2Z.id.
    now apply (markers_count mem mem 0). }
  unfold offsets, boundaries. rewrite !length_map, length_seq, length_app.
  cbn [length]. lia.
Qed.

Lemma record_result_defined (mem : Mem) (size : Z) (k : Z) :
  size = Z.of_nat (length mem) ->
  0 <= k < Z.of_nat (length (boundaries mem size)) - 1 ->
  nth_error mem (Z.to_nat (size - 1)) = Some newline ->
  exists s,
    record_result mem size
      (nth (Z.to_nat k) (boundaries mem size) 0)
      (nth (Z.to_nat (k + 1)) (boundaries mem size) 0) = Ok s.
Proof.
  intros Hsize Hk Hnl.
  destruct (boundaries_marker mem size (Z.to_nat k)) as [Hb0 Hb1]; [lia|].
  unfold record_result.
  destruct (first_newline mem (nth (Z.to_nat k) (boundaries mem size) 0) size)
    as [p|] eqn:E; [eauto|].
  exfalso.
  destruct (first_newline_missing mem _ size Hb0 E) as [_ Hnone].
  apply (Hnone (size - 1)); [lia|exact Hnl].
Qed.

(** X16. On a file whose last byte is a line break, every record gets a
    result: the start of a range is never read unassigned and no read
    leaves the mapping, whatever the worker count [w >= 1] and the
    schedules. *)
Theorem pipeline_line_terminated_file (mem : Mem) (size w : Z)
  (out : list (result Tally.Stats)) :
  size = Z.of_nat (length mem) -> size < 2 ^ 63 -> 1 <= w <= INT_MAX ->
  nth_error mem (Z.to_nat (size - 1)) = Some newline ->
  pipeline mem size w out ->
  Forall (fun r => exists s, r = Ok s) out.
Proof.
  intros Hsize Hlen Hw Hnl Hrun.
  pose proof (pipeline_record_results mem size w out Hsize Hlen Hw Hrun) as Hp.
  apply Forall_forall. intros r Hr.
  apply (Permutation_in _ (Permutation_sym Hp)) in Hr.
  apply in_map_iff in Hr. destruct Hr as (k & <- & Hk).
  apply in_offsets in Hk. now apply record_result_defined.
Qed.

(** X17. The two phases never read outside the mapped file: whatever the
    file, the worker count [w >= 1] and the schedules, the result of a
    record is either defined or the start of its range was never
    assigned; and the latter only for a header that no line break follows
    up to the end of the file. *)
Theorem pipeline_stays_in_mapping (mem : Mem) (size w : Z)
  (out : list (result Tally.Stats)) (r : result Tally.Stats) :
  size = Z.of_nat (length mem) -> size < 2 ^ 63 -> 1 <= w <= INT_MAX ->
  pipeline mem size w out -> In r out ->
  (exists s, r = Ok s) \/
  (r = Err Unassigned /\
   exists b, 0 <= b < size /\ nth_error mem (Z.to_nat b) = Some marker /\
             forall q, b <= q < size -> nth_error mem (Z.to_nat q) <> Some newline).
Proof.
  intros Hsize Hlen Hw Hrun Hr.
  pose proof (pipeline_record_results mem size w out Hsize Hlen Hw Hrun) as Hp.
  apply (Permutation_in _ (Permutation_sym Hp)) in Hr.
  apply in_map_iff in Hr. destruct Hr as (k & <- & Hk).
  apply in_offsets in Hk. unfold record_result.
  destruct (first_newline mem (nth (Z.to_nat k) (boundaries mem size) 0) size)
    as [p|] eqn:E; [left; eauto|].
  right. split; [reflexivity|].
  exists (nth (Z.to_nat k) (boundaries mem size) 0).
  destruct (boundaries_marker mem size (Z.to_nat k)) as [Hb0 Hb1]; [lia|].
  split; [lia|]. split.
  - assert (Hin : In (nth (Z.to_nat k) (boundaries mem size) 0)
                     (markers_in mem 0 size)).
    { unfold boundaries. unfold boundaries in Hk.
      rewrite length_app in Hk. cbn [length] in Hk.
      rewrite app_nth1 by lia. apply nth_In. lia. }
    apply in_markers_in in Hin. now apply marker_at_true.
  - now apply (first_newline_missing mem _ size Hb0 E).
Qed.

End FileResults.

Section FileResultsWitnesses.
Import Scanner Dispatcher.

Local Abbreviation sample :=
  (bytes ">a" ++ nl ++ bytes "GG>b" ++ nl ++ bytes "TN" ++ nl).

Local Abbreviation sample_out :=
  [Ok (Tally.mkStats (bytes ">a") (Tally.mkCounts 2 0 0 0 0 2));
   Ok (Tally.mkStats (bytes ">b") (Tally.mkCounts 0 0 0 1 1 2))].

Lemma sample_pipeline : pipeline sample 11 2 sample_out.
Proof.
  exists [0; 5; 11], 3%nat. eexists. split; [|split].
  - apply (getIndicies_returns sample 11 2);
      [reflexivity | now vm_compute | split; now vm_compute].
  - vm_compute. reflexivity.
  - apply (written_in_launch_order
             [[Ok (Tally.mkStats (bytes ">a") (Tally.mkCounts 2 0 0 0 0 2));
               Ok (Tally.mkStats (bytes ">b") (Tally.mkCounts 0 0 0 1 1 2))]]).
Qed.

Lemma pipeline_results_of_file_witness :
  Permutation
    (map (fun k => record_result sample 11
                     (nth (Z.to_nat k) (boundaries sample 11) 0)
                     (nth (Z.to_nat (k + 1)) (boundaries sample 11) 0))
         (offsets 0 (Z.of_nat (length (boundaries sample 11)) - 1)))
    sample_out /\
  length sample_out = count_occ ascii_dec sample marker.
Proof.
  apply (pipeline_results_of_file sample 11 2 sample_out);
    [reflexivity | now vm_compute | split; now vm_compute | apply sample_pipeline].
Defined.

Lemma pipeline_line_terminated_file_witness :
  Forall (fun r => exists s, r = Ok s) sample_out.
Proof.
  apply (pipeline_line_terminated_file sample 11 2 sample_out);
    [reflexivity | now vm_compute | split; now vm_compute | reflexivity
    | apply sample_pipeline].
Defined.

Lemma pipeline_stays_in_mapping_witness :
  (exists s, Ok (Tally.mkStats (bytes ">a") (Tally.mkCounts 2 0 0 0 0 2)) = Ok s) \/
  (Ok (Tally.mkStats (bytes ">a") (Tally.mkCounts 2 0 0 0 0 2)) = Err Unassigned /\
   exists b, 0 <= b < 11 /\ nth_error sample (Z.to_nat b) = Some marker /\
             forall q, b <= q < 11 -> nth_error sample (Z.to_nat q) <> Some newline).
Proof.
  apply (pipeline_stays_in_mapping sample 11 2 sample_out);
    [reflexivity | now vm_compute | split; now vm_compute | apply sample_pipeline
    | now left].
Defined.

End FileResultsWitnesses.

(** ** [main] on its other paths *)

Section MainRuns.
Import Cli.

Lemma stoi_int (str : string) (v : Z) :
  stoi str = inl v -> INT_MIN <= v <= INT_MAX.
Proof.
  unfold stoi. cbv zeta.
  destruct (snd _) as [|c rest]; [discriminate|].
  destruct (digit c); [|discriminate].
  match goal with
  | |- context [if ?b then _ else _] => destruct b eqn:E
  end; [|discriminate].
  intros H. inversion H; subst v.
  apply andb_true_iff in E. destruct E as [E1 E2].
  apply Z.leb_le in E1, E2. now split.
Qed.

(** X18. A valid invocation: with three arguments, a worker count that
    parses to [w >= 1] and a file that is mapped, [main] writes nothing to
    standard error and returns 0; the dispatcher has launched the threads
    of all the records of the file, in file order, in waves of 1 to [w]
    threads. *)
Theorem main_valid_invocation (os : OS) (fuel : nat) (prog file arg : string)
  (w : Z) (mem : Mem) :
  stoi arg = inl w -> 1 <= w ->
  os_mmap os (os_st_size os (os_open os file)) (os_open os file) = Some mem ->
  os_st_size os (os_open os file) = Z.of_nat (length mem) ->
  Z.of_nat (length mem) < 2 ^ 63 -> (length mem < fuel)%nat ->
  exists waves,
    main os fuel [prog; file; arg]
    = mkEffects []
        ["Pre-processing..."; "Done pre-processing...";
         "Counting nucleotides..."; "Done counting nucleotides...";
         "Output is stored in file named out.txt"]%string
        waves (Exits 0) /\
    concat waves
    = map (task_of (boundaries mem (Z.of_nat (length mem))) mem
             (Z.of_nat (length mem)))
          (offsets 0
             (Z.of_nat (length (boundaries mem (Z.of_nat (length mem)))) - 1)) /\
    Forall (fun wave => 1 <= Z.of_nat (length wave) <= w) waves.
Proof.
  intros Hstoi Hw1 Hmap Hst Hlen Hfuel.
  pose proof (stoi_int arg w Hstoi) as Hw. pose proof two63_lt_two64.
  assert (Hbl : 1 <= Z.of_nat (length (boundaries mem (Z.of_nat (length mem))))
                <= 2 ^ 63) by (apply boundaries_length; lia).
  destruct (stageCollections_waves mem (Z.of_nat (length mem))
              (boundaries mem (Z.of_nat (length mem))))
    with (w := w) (fuel := fuel) as (waves & E & Hc & Hf); try lia.
  - apply boundaries_unsigned. lia.
  - unfold boundaries. rewrite length_app. cbn [length].
    pose proof (markers_in_length mem 0 (Z.of_nat (length mem))). lia.
  - exists waves. split; [|split; assumption].
    unfold main. rewrite Hstoi. unfold readFile. rewrite Hmap, Hst.
    rewrite (wrap64_small (Z.of_nat (length mem))) by lia.
    rewrite getIndicies_seq_boundaries by lia.
    fold (boundaries mem (Z.of_nat (length mem))). rewrite E. reflexivity.
Qed.

Lemma main_valid_invocation_witness :
  exists waves,
    main (one_file (bytes ">a" ++ nl ++ bytes "GT")) 9
      ["bio-util"; "a.fa"; "2"]%string
    = mkEffects []
        ["Pre-processing..."; "Done pre-processing...";
         "Counting nucleotides..."; "Done counting nucleotides...";
         "Output is stored in file named out.txt"]%string
        waves (Exits 0) /\
    concat waves
    = map (task_of (boundaries (bytes ">a" ++ nl ++ bytes "GT") 5)
             (bytes ">a" ++ nl ++ bytes "GT") 5)
          (offsets 0 (Z.of_nat (length (boundaries (bytes ">a" ++ nl ++ bytes "GT") 5)) - 1)) /\
    Forall (fun wave => 1 <= Z.of_nat (length wave) <= 2) waves.
Proof.
  apply (main_valid_invocation (one_file (bytes ">a" ++ nl ++ bytes "GT")) 9
           "bio-util" "a.fa" "2" 2 (bytes ">a" ++ nl ++ bytes "GT"));
    try reflexivity; try (now vm_compute).
  cbn [length app bytes list_ascii_of_string nl]. lia.
Defined.

(** X19. A negative worker count is not rejected and does not fail: when
    it parses and the file is mapped, [main] scans nothing, launches no
    thread, writes nothing to standard error and returns 0, whatever the
    file holds. *)
Theorem main_negative_worker_count (os : OS) (fuel : nat)
  (prog file arg : string) (w : Z) (mem : Mem) :
  stoi arg = inl w -> w < 0 ->
  os_mmap os (os_st_size os (os_open os file)) (os_open os file) = Some mem ->
  fuel <> 0%nat ->
  main os fuel [prog; file; arg]
  = mkEffects []
      ["Pre-processing..."; "Done pre-processing...";
       "Counting nucleotides..."; "Done counting nucleotides...";
       "Output is stored in file named out.txt"]%string
      [] (Exits 0).
Proof.
  intros Hstoi Hneg Hmap Hfuel.
  pose proof (stoi_int arg w Hstoi) as Hw.
  unfold main. rewrite Hstoi. unfold readFile. rewrite Hmap.
  unfold Scanner.getIndicies_seq.
  rewrite chunk_ranges_negative by lia. cbn [bind Scanner.thread_pushes].
  change (Scanner.std_sort ([] ++ concat [] ++ [wrap64 (os_st_size os (os_open os file))]))
    with [wrap64 (os_st_size os (os_open os file))].
  now rewrite stageCollections_sentinel_only.
Qed.

Lemma main_negative_worker_count_witness :
  main (one_file (bytes ">a" ++ nl ++ bytes "GT")) 1
    ["bio-util"; "a.fa"; "-3"]%string
  = mkEffects []
      ["Pre-processing..."; "Done pre-processing...";
       "Counting nucleotides..."; "Done counting nucleotides...";
       "Output is stored in file named out.txt"]%string
      [] (Exits 0).
Proof.
  apply (main_negative_worker_count _ 1 _ _ _ (-3) (bytes ">a" ++ nl ++ bytes "GT"));
    [reflexivity | lia | reflexivity | discriminate].
Defined.

End MainRuns.

(** ** A header that no line break follows *)

Section StaleStart.
Import Dispatcher.

(** C4, on the file [>G], two bytes and no line break. With one worker
    and with two, the boundary list is [0, 2] and one thread is launched
    for the record, with the header [>G] and a start that
    [getDescription] never assigned. [collectCounts] then runs from
    whatever that variable holds: from 0 it counts one G, from 2 it
    counts nothing. The counters written for the record are not given by
    the file. *)
Theorem unterminated_header_stale_start :
  Scanner.getIndicies_seq [] (bytes ">G") 2 1 = Ok [0; 2] /\
  Scanner.getIndicies_seq [] (bytes ">G") 2 2 = Ok [0; 2] /\
  getDescription (bytes ">G") 0 2 = Ok (mkDescription (bytes ">G") None) /\
  stageCollections 2 [0; 2] (bytes ">G") 2 1
  = Ok [[mkTask (bytes ">G") None 2]] /\
  stageCollections 2 [0; 2] (bytes ">G") 2 2
  = Ok [[mkTask (bytes ">G") None 2]] /\
  run_task_stale 0 (bytes ">G") (mkTask (bytes ">G") None 2)
  = Ok (Tally.mkStats (bytes ">G") (Tally.mkCounts 1 0 0 0 0 1)) /\
  run_task_stale 2 (bytes ">G") (mkTask (bytes ">G") None 2)
  = Ok (Tally.mkStats (bytes ">G") Tally.zero).
Proof.
  repeat split; now vm_compute.
Qed.

End StaleStart.

(** ** Whole blocks on the output *)

Section SinkCompletion.
Import Sink.

Variables (tables : list (list ascii)) (out0 : list ascii).

Lemma consistent_can_step (s : State) (order : list nat) (partial : list ascii)
  (k : nat) :
  consistent tables out0 s order partial ->
  (k < length tables)%nat -> pcs s k <> Released ->
  exists s', printStats tables s s'.
Proof.
  intros [_ _ _ Hlock _] Hk Hpc.
  destruct (mute s) as [h|] eqn:Hmute.
  - destruct Hlock as (rest & Hh & _).
    destruct rest as [|c rest]; eexists.
    + now apply (printStats_unlock tables s h).
    + now apply (printStats_write tables s h c rest).
  - destruct Hlock as [_ Hfree].
    destruct (pcs s k) as [|rest|] eqn:Ek.
    + destruct (nth_error tables k) as [tbl|] eqn:Et.
      * eexists. now apply (printStats_lock tables s k tbl).
      * apply nth_error_None in Et. lia.
    + now apply Hfree in Ek.
    + now contradiction Hpc.
Qed.

Lemma list_sum_zero (l : list nat) :
  list_sum l = 0%nat -> forall x, In x l -> x = 0%nat.
Proof.
  induction l as [|y l IH]; intros H x Hx; [contradiction|].
  rewrite list_sum_cons in H. destruct Hx as [<-|Hx]; [lia|].
  apply IH; [lia|exact Hx].
Qed.

Lemma list_sum_positive (l : list nat) :
  list_sum l <> 0%nat -> exists x, In x l /\ x <> 0%nat.
Proof.
  induction l as [|y l IH]; intros H; [now contradiction H|].
  rewrite list_sum_cons in H. destruct y as [|y].
  - destruct IH as (x & Hx & Hne); [exact H|]. exists x. split; [now right|exact Hne].
  - exists (S y). split; [now left|discriminate].
Qed.

Lemma no_work_left (f : nat -> pc) :
  work_left tables f = 0%nat ->
  forall k, (k < length tables)%nat -> f k = Released.
Proof.
  intros H k Hk. unfold work_left in H.
  assert (E : steps_left (table_of tables k) (f k) = 0%nat).
  { apply (list_sum_zero _ H). apply in_map_iff. exists k.
    split; [reflexivity|]. apply in_seq. lia. }
  destruct (f k); cbn [steps_left] in E; [lia|lia|reflexivity].
Qed.

Lemma some_work_left (f : nat -> pc) :
  work_left tables f <> 0%nat ->
  exists k, (k < length tables)%nat /\ f k <> Released.
Proof.
  intros H. unfold work_left in H.
  destruct (list_sum_positive _ H) as (x & Hx & Hne).
  apply in_map_iff in Hx. destruct Hx as (k & <- & Hk). apply in_seq in Hk.
  exists k. split; [lia|]. intros E. rewrite E in Hne. now apply Hne.
Qed.

Lemma run_reachable (n : nat) (s s' : State) :
  run tables n s s' -> reachable tables out0 s -> reachable tables out0 s'.
Proof.
  induction 1 as [s|n s s1 s2 Hstep _ IH]; intros Hreach; [exact Hreach|].
  apply IH. eapply reach_step; eauto.
Qed.

Lemma run_work_left (n : nat) (s s' : State) :
  run tables n s s' -> reachable tables out0 s ->
  (n + work_left tables (pcs s') = work_left tables (pcs s))%nat.
Proof.
  induction 1 as [s|n s s1 s2 Hstep _ IH]; intros Hreach; [reflexivity|].
  rewrite <- (work_left_step tables out0 s s1 Hreach Hstep).
  rewrite <- IH by (eapply reach_step; eauto). lia.
Qed.

Lemma run_to_the_end (m : nat) :
  forall s, reachable tables out0 s -> work_left tables (pcs s) = m ->
    exists n s',
      run tables n s s' /\
      forall k, (k < length tables)%nat -> pcs s' k = Released.
Proof.
  induction m as [|m IH]; intros s Hreach Hm.
  - exists 0%nat, s. split; [constructor|]. now apply no_work_left.
  - destruct (some_work_left (pcs s)) as (k & Hk & Hpc); [lia|].
    destruct (reachable_consistent _ _ _ Hreach) as (order & partial & Hc).
    destruct (consistent_can_step s order partial k Hc Hk Hpc) as [s1 Hstep].
    pose proof (work_left_step tables out0 s s1 Hreach Hstep) as Hw.
    destruct (IH s1) as (n & s' & Hrun & Hall);
      [eapply reach_step; eauto | lia |].
    exists (S n), s'. split; [|exact Hall]. eapply run_step; eauto.
Qed.

End SinkCompletion.

Section SinkBlocks.
Import Sink.

(** C8. Threads that print the results [stats] through [printStats], under
    every interleaving of their steps.
    - Whole blocks only: at most one thread is between the constructor and
      the destructor of its [lock_guard]; [ofile] holds what it held
      before, then the whole tables of the threads that have left the
      critical section, one after the other in the order they left it,
      then the part already written of the table of the thread that owns
      the lock, if any. No table is ever cut by bytes of another.
    - Every block is appended: as long as a thread has not left
      [printStats] some thread can step, so a state where no thread can
      step has all threads through; every run from the state takes as
      many steps as it removes from the work left, so runs end; and the
      threads can run to the end, where [ofile] holds what it held before
      the threads started followed by one whole table for each thread. *)
Theorem printStats_appends_whole_blocks (stats : list Tally.Stats)
  (out0 : list ascii) (s : State) :
  reachable (map table stats) out0 s ->
  (exists order partial,
     NoDup order /\
     (forall k, In k order <-> pcs s k = Released) /\
     ofile s
     = out0 ++ concat (map (table_of (map table stats)) order) ++ partial /\
     (forall j k rj rk, pcs s j = Locked rj -> pcs s k = Locked rk -> j = k) /\
     (partial = [] \/
      exists h rest,
        mute s = Some h /\ pcs s h = Locked rest /\
        table_of (map table stats) h = partial ++ rest) /\
     ((forall k, (k < length stats)%nat -> pcs s k = Released) ->
      partial = [] /\ Permutation order (seq 0 (length stats)))) /\
  ((forall s', ~ printStats (map table stats) s s') ->
   forall k, (k < length stats)%nat -> pcs s k = Released) /\
  (forall n s', run (map table stats) n s s' ->
     (n + work_left (map table stats) (pcs s')
      = work_left (map table stats) (pcs s))%nat) /\
  (exists n s' order,
     run (map table stats) n s s' /\
     (forall k, (k < length stats)%nat -> pcs s' k = Released) /\
     Permutation order (seq 0 (length stats)) /\
     ofile s' = out0 ++ concat (map (table_of (map table stats)) order)).
Proof.
  intros Hreach.
  destruct (reachable_consistent _ _ _ Hreach) as (order & partial & Hc).
  split; [|split; [|split]].
  - exists order, partial.
    split; [apply Hc|]. split; [apply Hc|]. split; [apply Hc|].
    split; [|split].
    + intros j k rj rk Hj Hk.
      destruct (locked_is_owner _ _ _ _ _ k rk Hc Hk) as (_ & _ & Huniq).
      now apply (Huniq j rj).
    + destruct Hc as [_ _ _ Hlock _]. destruct (mute s) as [h|].
      * right. destruct Hlock as (rest & Hh & Htbl & _). now exists h, rest.
      * left. now destruct Hlock.
    + intros Hall. rewrite <- (length_map table stats).
      apply (all_released _ _ _ _ _ Hc). now rewrite length_map.
  - intros Hstuck k Hk.
    destruct (pcs s k) as [|rest|] eqn:Ek; [| |reflexivity].
    + destruct (consistent_can_step _ _ s order partial k Hc) as [s' Hstep];
        [now rewrite length_map | rewrite Ek; discriminate |].
      now apply Hstuck in Hstep.
    + destruct (consistent_can_step _ _ s order partial k Hc) as [s' Hstep];
        [now rewrite length_map | rewrite Ek; discriminate |].
      now apply Hstuck in Hstep.
  - intros n s' Hrun. now apply (run_work_left _ out0 n s s').
  - destruct (run_to_the_end (map table stats) out0 _ s Hreach eq_refl)
      as (n & s' & Hrun & Hall).
    pose proof (run_reachable _ out0 n s s' Hrun Hreach) as Hreach'.
    destruct (reachable_consistent _ _ _ Hreach') as (order' & partial' & Hc').
    destruct (all_released _ _ _ _ _ Hc' Hall) as [-> Hperm].
    exists n, s', order'. split; [exact Hrun|]. split.
    + intros k Hk. apply Hall. now rewrite length_map.
    + split; [now rewrite length_map in Hperm|].
      rewrite (written_blocks _ _ _ _ _ Hc'). now rewrite app_nil_r.
Qed.

Lemma printStats_appends_whole_blocks_witness :
  exists n s' order,
    run (map table [Tally.mkStats (bytes ">a") (Tally.mkCounts 2 0 0 0 0 2);
                    Tally.mkStats (bytes ">b") (Tally.mkCounts 0 0 0 1 1 2)])
      n (init (bytes "x")) s' /\
    Permutation order [0; 1]%nat /\
    ofile s'
    = bytes "x"
      ++ concat (map (table_of
                        (map table
                           [Tally.mkStats (bytes ">a") (Tally.mkCounts 2 0 0 0 0 2);
                            Tally.mkStats (bytes ">b") (Tally.mkCounts 0 0 0 1 1 2)]))
                     order).
Proof.
  destruct (printStats_appends_whole_blocks
              [Tally.mkStats (bytes ">a") (Tally.mkCounts 2 0 0 0 0 2);
               Tally.mkStats (bytes ">b") (Tally.mkCounts 0 0 0 1 1 2)]
              (bytes "x") (init (bytes "x")))
    as (_ & _ & _ & n & s' & order & Hrun & _ & Hperm & Hout).
  - apply reach_init.
  - exists n, s', order. split; [exact Hrun|]. split; [exact Hperm|exact Hout].
Defined.

End SinkBlocks.
